(** * MathNexus-3D: the graph visualizer component

    A shallow embedding of [GraphVisualizerComponent]
    (components/graph-visualizer.component.ts): the formula compiler built on
    the JavaScript [Function] constructor, the per-vertex height update of the
    two mesh layers, the animation loop, resize handling and teardown.

    Also embedded: [AiService.processError] and the polling loop of
    [AiService.generateMathVideo] (services/ai.service.ts), and
    [AppComponent.updateStability] (app.component.ts).

    JavaScript numbers are IEEE-754 binary64 values, the vertex buffers are
    [Float32Array]s.  Both are modelled with the Standard Library's
    [spec_float] and its rounding functions, so every arithmetic result below
    is the correctly rounded one. *)

From Stdlib Require Import ZArith Bool List Ascii String Lia.
From Stdlib Require Import Floats.SpecFloat.
From stdpp Require Import base option gmap strings.
Import ListNotations.

Local Open Scope Z_scope.
#[local] Set Warnings "-register-all".

(** ** Numbers *)

Module F64.

Definition prec : Z := 53.
Definition emax : Z := 1024.

(** A JavaScript Number.  Finite values are kept in the canonical binary64
    form that the operations below produce. *)
Definition float : Type := spec_float.

Definition nan : float := S754_nan.
Definition zero : float := S754_zero false.
Definition inf : float := S754_infinity false.

Definition add : float -> float -> float := SFadd prec emax.
Definition sub : float -> float -> float := SFsub prec emax.
Definition mul : float -> float -> float := SFmul prec emax.
Definition div : float -> float -> float := SFdiv prec emax.
Definition sqrt : float -> float := SFsqrt prec emax.
Definition neg : float -> float := SFopp.
Definition abs : float -> float := SFabs.

(** The Number nearest to an integer (ties to even). *)
Definition of_Z (z : Z) : float := binary_normalize prec emax z 0 false.

(** The Number nearest to [m / 10^k]: the value of the decimal literal whose
    digits, read without the point, are [m] and which has [k] digits after
    the point.  The quotient is rounded once. *)
Definition of_decimal (m : N) (k : nat) : float :=
  match m with
  | N0 => zero
  | Npos p =>
      match k with
      | O => of_Z (Zpos p)
      | S _ => SFdiv prec emax (S754_finite false p 0)
                 (S754_finite false (Pos.pow 10 (Pos.of_nat k)) 0)
      end
  end.

Definition is_nan (f : float) : bool :=
  match f with S754_nan => true | _ => false end.

Definition is_finite (f : float) : bool :=
  match f with S754_zero _ | S754_finite _ _ _ => true | _ => false end.

(** [Math.fround]: rounding to binary32 and reading the result back as a
    Number.  This is what a store into a [Float32Array] followed by a load
    does. *)
Definition fround (f : float) : float :=
  match f with
  | S754_finite s m e =>
      match binary_round 24 128 s m e with
      | S754_finite s' m' e' => binary_round prec emax s' m' e'
      | r => r
      end
  | _ => f
  end.

End F64.

Abbreviation float := F64.float.

(** ** The JavaScript fragment

    [compileFormula] splices the formula text into a function body and hands
    it to the [Function] constructor.  The engine is the browser's, not the
    repository's; this module models the part of ECMAScript (sloppy mode,
    which is what [Function] bodies run in) that the formulas of the
    application use:

    - lexical grammar: decimal literals, ASCII identifier names, the
      punctuators [( ) { } . , ; = + - * / ||], blanks and tabs;
    - expressions: literals, identifiers, [Math.name], calls, unary [-] and
      [+], binary [+ - * /], [||], and assignment to an identifier or to
      [Math.name];
    - statements: [return] and [try { } catch (id) { }] holding one [return]
      each, which is the shape of the body [compileFormula] builds.

    Text outside the fragment is classified [NotModelled]; nothing is stated
    about it.  Whatever the model accepts, it parses and evaluates as
    ECMAScript does. *)

Module JS.

(** *** Values *)

Inductive builtin := Babs | Bsqrt | Bsin | Bcos | Bexp.

Inductive value :=
| VNum (n : float)
| VUndef
| VFun (b : builtin)      (* a built-in function object *)
| VMath                   (* the Math object *)
| VError                  (* a ReferenceError or TypeError object *)
| VText.                  (* a string that holds the text of an object or of
                             a function: it is neither empty nor numeric *)

Definition ToNumber (v : value) : float :=
  match v with
  | VNum n => n
  | _ => F64.nan
  end.

Definition ToBoolean (v : value) : bool :=
  match v with
  | VNum (S754_zero _) | VNum S754_nan | VUndef => false
  | _ => true
  end.

Definition is_primitive_number (v : value) : bool :=
  match v with VNum _ | VUndef => true | _ => false end.

(** The global function [isNaN]: [ToNumber], then the NaN test. *)
Definition isNaN (v : value) : bool := F64.is_nan (ToNumber v).

(** *** Syntax *)

Inductive binop := Add | Sub | Mul | Div.

Inductive expr :=
| ENum (n : float)
| EId (name : string)
| EMath (prop : string)                    (* Math.prop *)
| ECall (callee : expr) (args : list expr)
| ENeg (e : expr)
| EPos (e : expr)
| EBin (op : binop) (e1 e2 : expr)
| EOr (e1 e2 : expr)
| EAssign (name : string) (e : expr)       (* name = e *)
| EAssignMath (prop : string) (e : expr).  (* Math.prop = e *)

Inductive stmt :=
| SReturn (e : option expr)
| STry (block : stmt) (param : string) (handler : stmt).

(** A function object made by the [Function] constructor. *)
Record func := { params : list string; body : stmt }.

(** An expression without assignment. *)
Fixpoint pure_expr (e : expr) : bool :=
  match e with
  | ENum _ | EId _ | EMath _ => true
  | ECall f args => pure_expr f && forallb pure_expr args
  | ENeg a | EPos a => pure_expr a
  | EBin _ a b | EOr a b => pure_expr a && pure_expr b
  | EAssign _ _ | EAssignMath _ _ => false
  end.

Fixpoint pure_stmt (s : stmt) : bool :=
  match s with
  | SReturn None => true
  | SReturn (Some e) => pure_expr e
  | STry block _ handler => pure_stmt block && pure_stmt handler
  end.

Definition pure (f : func) : bool := pure_stmt (body f).

(** *** Lexer *)

Inductive token :=
| TNum (n : float) | TId (s : string)
| TLParen | TRParen | TLBrace | TRBrace
| TDot | TComma | TSemi | TAssign
| TPlus | TMinus | TStar | TSlash | TOrOr.

Definition code (c : ascii) : nat := nat_of_ascii c.

Definition between (lo hi : nat) (c : ascii) : bool :=
  (lo <=? code c)%nat && (code c <=? hi)%nat.

Definition is_digit (c : ascii) : bool := between 48 57 c.

Definition is_ident_start (c : ascii) : bool :=
  between 65 90 c || between 97 122 c
  || Ascii.eqb c "_" || Ascii.eqb c "$".

Definition is_ident_part (c : ascii) : bool :=
  is_ident_start c || is_digit c.

Definition is_blank (c : ascii) : bool :=
  Ascii.eqb c " " || Ascii.eqb c "009".

Definition digit_val (c : ascii) : N := N.of_nat (code c - 48).

Fixpoint all_ident_part (s : string) : bool :=
  match s with
  | EmptyString => true
  | String c s' => is_ident_part c && all_ident_part s'
  end.

(** An identifier name, written in ASCII. *)
Definition is_identifier (s : string) : bool :=
  match s with
  | EmptyString => false
  | String c s' => is_ident_start c && all_ident_part s'
  end.

(** The lexer reads one character at a time.  A punctuator that could be
    the start of a longer one ([+] of [++] or [+=], [/] of a comment, ...)
    is held back until the next character is seen. *)
Inductive lex_state :=
| LStart
| LIdent (acc : string)
| LInt (m : N) (zero_led : bool)
| LFrac (m : N) (k : nat)
| LPunct (c : ascii)
| LOrOr.

Definition snoc (s : string) (c : ascii) : string := (s ++ String c "")%string.

Definition step_start (c : ascii) : option (lex_state * list token) :=
  if is_blank c then Some (LStart, [])
  else if is_ident_start c then Some (LIdent (String c ""), [])
  else if is_digit c then Some (LInt (digit_val c) (Ascii.eqb c "0"), [])
  else if Ascii.eqb c "(" then Some (LStart, [TLParen])
  else if Ascii.eqb c ")" then Some (LStart, [TRParen])
  else if Ascii.eqb c "{" then Some (LStart, [TLBrace])
  else if Ascii.eqb c "}" then Some (LStart, [TRBrace])
  else if Ascii.eqb c "," then Some (LStart, [TComma])
  else if Ascii.eqb c ";" then Some (LStart, [TSemi])
  else if Ascii.eqb c "+" || Ascii.eqb c "-" || Ascii.eqb c "*"
          || Ascii.eqb c "/" || Ascii.eqb c "=" || Ascii.eqb c "|"
          || Ascii.eqb c "."
       then Some (LPunct c, [])
  else None.

(** The token of a held-back punctuator that turned out to stand alone. *)
Definition punct_token (p : ascii) : option token :=
  if Ascii.eqb p "+" then Some TPlus
  else if Ascii.eqb p "-" then Some TMinus
  else if Ascii.eqb p "*" then Some TStar
  else if Ascii.eqb p "/" then Some TSlash
  else if Ascii.eqb p "=" then Some TAssign
  else if Ascii.eqb p "." then Some TDot
  else None.

(** [p] followed by [c] is, or begins, a punctuator, a comment or a literal
    outside the fragment. *)
Definition joins (p c : ascii) : bool :=
  if Ascii.eqb p "+" then Ascii.eqb c "+" || Ascii.eqb c "="
  else if Ascii.eqb p "-" then Ascii.eqb c "-" || Ascii.eqb c "="
  else if Ascii.eqb p "*" then Ascii.eqb c "*" || Ascii.eqb c "="
  else if Ascii.eqb p "/" then Ascii.eqb c "/" || Ascii.eqb c "*" || Ascii.eqb c "="
  else if Ascii.eqb p "=" then Ascii.eqb c "=" || Ascii.eqb c ">"
  else if Ascii.eqb p "." then Ascii.eqb c "." || is_digit c
  else true.

Definition emit (t : token) (r : option (lex_state * list token))
  : option (lex_state * list token) :=
  match r with
  | Some (st, out) => Some (st, t :: out)
  | None => None
  end.

Definition step (st : lex_state) (c : ascii) : option (lex_state * list token) :=
  match st with
  | LStart => step_start c
  | LIdent acc =>
      if is_ident_part c then Some (LIdent (snoc acc c), [])
      else emit (TId acc) (step_start c)
  | LInt m zero_led =>
      if is_digit c then
        if zero_led then None
        else Some (LInt (10 * m + digit_val c)%N false, [])
      else if Ascii.eqb c "." then Some (LFrac m 0, [])
      else if is_ident_start c then None
      else emit (TNum (F64.of_decimal m 0)) (step_start c)
  | LFrac m k =>
      if is_digit c then Some (LFrac (10 * m + digit_val c)%N (S k), [])
      else if is_ident_start c then None
      else emit (TNum (F64.of_decimal m k)) (step_start c)
  | LPunct p =>
      if Ascii.eqb p "|" then
        if Ascii.eqb c "|" then Some (LOrOr, []) else None
      else if joins p c then None
      else match punct_token p with
           | Some t => emit t (step_start c)
           | None => None
           end
  | LOrOr =>
      if Ascii.eqb c "=" then None else emit TOrOr (step_start c)
  end.

Definition finish (st : lex_state) : option (list token) :=
  match st with
  | LStart => Some []
  | LIdent acc => Some [TId acc]
  | LInt m _ => Some [TNum (F64.of_decimal m 0)]
  | LFrac m k => Some [TNum (F64.of_decimal m k)]
  | LPunct p => option_map (fun t => [t]) (punct_token p)
  | LOrOr => Some [TOrOr]
  end.

Fixpoint lex_from (st : lex_state) (s : string) : option (list token) :=
  match s with
  | EmptyString => finish st
  | String c s' =>
      match step st c with
      | Some (st', out) => option_map (app out) (lex_from st' s')
      | None => None
      end
  end.

Definition lex (s : string) : option (list token) := lex_from LStart s.

(** The lexer over a piece of the text: the state reached and the tokens
    completed so far. *)
Fixpoint lex_run (st : lex_state) (s : string) : option (lex_state * list token) :=
  match s with
  | EmptyString => Some (st, [])
  | String c s' =>
      match step st c with
      | Some (st', out) =>
          match lex_run st' s' with
          | Some (st'', out') => Some (st'', out ++ out')
          | None => None
          end
      | None => None
      end
  end.

(** *** Names

    An identifier is looked up in the function's scope and then on the
    global object; [Math.name] is looked up on the Math object and then on
    [Object.prototype].  The model knows the Math object's [abs], [sqrt],
    [sin], [cos], [exp], [PI] and [E] and every property that a formula
    adds.  Names that ECMAScript gives another meaning are kept out of the
    fragment. *)

Definition mem (s : string) (l : list string) : bool :=
  existsb (String.eqb s) l.

(** Reserved words that cannot begin an expression: right after [return]
    they are a SyntaxError. *)
Definition statement_keywords : list string :=
  ["break"; "case"; "catch"; "const"; "continue"; "debugger"; "default";
   "do"; "else"; "enum"; "export"; "extends"; "finally"; "for"; "if"; "in";
   "instanceof"; "return"; "switch"; "throw"; "try"; "var"; "while";
   "with"]%string.

(** Words that begin an expression of another kind, or are treated
    specially in some context. *)
Definition expression_keywords : list string :=
  ["class"; "delete"; "false"; "function"; "import"; "new"; "null";
   "super"; "this"; "true"; "typeof"; "void"; "yield"; "await"; "let";
   "static"; "async"; "of"; "get"; "set"; "implements"; "interface";
   "package"; "private"; "protected"; "public"; "arguments"]%string.

(** Properties of the global object other than [Math]. *)
Definition standard_globals : list string :=
  ["globalThis"; "Infinity"; "NaN"; "undefined"; "eval"; "isFinite";
   "isNaN"; "parseFloat"; "parseInt"; "decodeURI"; "decodeURIComponent";
   "encodeURI"; "encodeURIComponent"; "escape"; "unescape";
   "AggregateError"; "Array"; "ArrayBuffer"; "BigInt"; "BigInt64Array";
   "BigUint64Array"; "Boolean"; "DataView"; "Date"; "Error"; "EvalError";
   "FinalizationRegistry"; "Float32Array"; "Float64Array"; "Function";
   "Int8Array"; "Int16Array"; "Int32Array"; "Map"; "Number"; "Object";
   "Promise"; "Proxy"; "RangeError"; "ReferenceError"; "RegExp"; "Set";
   "SharedArrayBuffer"; "String"; "Symbol"; "SyntaxError"; "TypeError";
   "Uint8Array"; "Uint8ClampedArray"; "Uint16Array"; "Uint32Array";
   "URIError"; "WeakMap"; "WeakRef"; "WeakSet"; "Atomics"; "JSON";
   "Reflect"; "Intl"; "Iterator"; "WebAssembly"]%string.

(** Properties that the browser puts on the global object, among them the
    ones the component itself calls. *)
Definition host_globals : list string :=
  ["window"; "self"; "document"; "location"; "top"; "parent"; "frames";
   "opener"; "closed"; "length"; "name"; "status"; "origin"; "event";
   "history"; "navigator"; "screen"; "performance"; "console"; "crypto";
   "localStorage"; "sessionStorage"; "indexedDB"; "caches"; "external";
   "requestAnimationFrame"; "cancelAnimationFrame"; "setTimeout";
   "setInterval"; "clearTimeout"; "clearInterval"; "queueMicrotask";
   "requestIdleCallback"; "cancelIdleCallback"; "addEventListener";
   "removeEventListener"; "dispatchEvent"; "alert"; "confirm"; "prompt";
   "open"; "close"; "stop"; "focus"; "blur"; "print"; "fetch"; "postMessage";
   "getComputedStyle"; "matchMedia"; "scroll"; "scrollTo"; "scrollBy";
   "moveTo"; "moveBy"; "resizeTo"; "resizeBy"; "atob"; "btoa";
   "structuredClone"; "reportError"; "devicePixelRatio"; "innerWidth";
   "innerHeight"; "outerWidth"; "outerHeight"; "scrollX"; "scrollY";
   "pageXOffset"; "pageYOffset"; "screenX"; "screenY"; "screenLeft";
   "screenTop"; "visualViewport"; "customElements"; "isSecureContext";
   "process"]%string.

(** Properties of the Math object that the model does not evaluate. *)
Definition math_other_names : list string :=
  ["acos"; "acosh"; "asin"; "asinh"; "atan"; "atanh"; "atan2"; "cbrt";
   "ceil"; "clz32"; "cosh"; "expm1"; "floor"; "fround"; "f16round";
   "hypot"; "imul"; "log"; "log1p"; "log10"; "log2"; "max"; "min"; "pow";
   "random"; "round"; "sign"; "sinh"; "sumPrecise"; "tan"; "tanh"; "trunc";
   "LN10"; "LN2"; "LOG10E"; "LOG2E"; "SQRT1_2"; "SQRT2"]%string.

Definition object_prototype_names : list string :=
  ["constructor"; "hasOwnProperty"; "isPrototypeOf";
   "propertyIsEnumerable"; "toLocaleString"; "toString"; "valueOf";
   "__proto__"; "__defineGetter__"; "__defineSetter__";
   "__lookupGetter__"; "__lookupSetter__"]%string.

Definition ident_modelled (s : string) : bool :=
  negb (mem s statement_keywords || mem s expression_keywords
        || mem s standard_globals || mem s host_globals).

Definition math_prop_modelled (p : string) : bool :=
  negb (mem p math_other_names || mem p object_prototype_names).

(** A name that may be bound (parameter, catch parameter) or assigned. *)
Definition binder_ok (s : string) : bool :=
  ident_modelled s && negb (String.eqb s "Math").

(** *** Parser

    Recursive descent, one function per precedence level of the
    ECMAScript expression grammar.  [None]: the tokens are not an
    expression of the fragment. *)

Definition presult : Type := option (expr * list token).

Fixpoint p_assign (fuel : nat) (ts : list token) {struct fuel} : presult :=
  match fuel with
  | O => None
  | S f =>
      match p_or f ts with
      | Some (lhs, TAssign :: r) =>
          match lhs with
          | EId n =>
              if binder_ok n then
                match p_assign f r with
                | Some (rhs, r') => Some (EAssign n rhs, r')
                | None => None
                end
              else None
          | EMath p =>
              match p_assign f r with
              | Some (rhs, r') => Some (EAssignMath p rhs, r')
              | None => None
              end
          | _ => None
          end
      | other => other
      end
  end

with p_or (fuel : nat) (ts : list token) {struct fuel} : presult :=
  match fuel with
  | O => None
  | S f =>
      match p_add f ts with
      | Some (lhs, r) => p_or_rest f lhs r
      | None => None
      end
  end

with p_or_rest (fuel : nat) (lhs : expr) (ts : list token) {struct fuel} : presult :=
  match fuel with
  | O => None
  | S f =>
      match ts with
      | TOrOr :: r =>
          match p_add f r with
          | Some (rhs, r') => p_or_rest f (EOr lhs rhs) r'
          | None => None
          end
      | _ => Some (lhs, ts)
      end
  end

with p_add (fuel : nat) (ts : list token) {struct fuel} : presult :=
  match fuel with
  | O => None
  | S f =>
      match p_mul f ts with
      | Some (lhs, r) => p_add_rest f lhs r
      | None => None
      end
  end

with p_add_rest (fuel : nat) (lhs : expr) (ts : list token) {struct fuel} : presult :=
  match fuel with
  | O => None
  | S f =>
      match ts with
      | TPlus :: r =>
          match p_mul f r with
          | Some (rhs, r') => p_add_rest f (EBin Add lhs rhs) r'
          | None => None
          end
      | TMinus :: r =>
          match p_mul f r with
          | Some (rhs, r') => p_add_rest f (EBin Sub lhs rhs) r'
          | None => None
          end
      | _ => Some (lhs, ts)
      end
  end

with p_mul (fuel : nat) (ts : list token) {struct fuel} : presult :=
  match fuel with
  | O => None
  | S f =>
      match p_unary f ts with
      | Some (lhs, r) => p_mul_rest f lhs r
      | None => None
      end
  end

with p_mul_rest (fuel : nat) (lhs : expr) (ts : list token) {struct fuel} : presult :=
  match fuel with
  | O => None
  | S f =>
      match ts with
      | TStar :: r =>
          match p_unary f r with
          | Some (rhs, r') => p_mul_rest f (EBin Mul lhs rhs) r'
          | None => None
          end
      | TSlash :: r =>
          match p_unary f r with
          | Some (rhs, r') => p_mul_rest f (EBin Div lhs rhs) r'
          | None => None
          end
      | _ => Some (lhs, ts)
      end
  end

with p_unary (fuel : nat) (ts : list token) {struct fuel} : presult :=
  match fuel with
  | O => None
  | S f =>
      match ts with
      | TMinus :: r =>
          match p_unary f r with
          | Some (e, r') => Some (ENeg e, r')
          | None => None
          end
      | TPlus :: r =>
          match p_unary f r with
          | Some (e, r') => Some (EPos e, r')
          | None => None
          end
      | _ =>
          match p_primary f ts with
          | Some (e, r) => p_calls f e r
          | None => None
          end
      end
  end

with p_calls (fuel : nat) (callee : expr) (ts : list token) {struct fuel} : presult :=
  match fuel with
  | O => None
  | S f =>
      match ts with
      | TLParen :: TRParen :: r => p_calls f (ECall callee []) r
      | TLParen :: r =>
          match p_args f r with
          | Some (args, r') => p_calls f (ECall callee args) r'
          | None => None
          end
      | TDot :: _ => None
      | _ => Some (callee, ts)
      end
  end

with p_args (fuel : nat) (ts : list token) {struct fuel}
  : option (list expr * list token) :=
  match fuel with
  | O => None
  | S f =>
      match p_assign f ts with
      | Some (a, TComma :: r) =>
          match p_args f r with
          | Some (rest, r') => Some (a :: rest, r')
          | None => None
          end
      | Some (a, TRParen :: r) => Some ([a], r)
      | _ => None
      end
  end

with p_primary (fuel : nat) (ts : list token) {struct fuel} : presult :=
  match fuel with
  | O => None
  | S f =>
      match ts with
      | TNum n :: r => Some (ENum n, r)
      | TId s :: r =>
          if String.eqb s "Math" then
            match r with
            | TDot :: TId p :: r' =>
                if math_prop_modelled p then Some (EMath p, r') else None
            | _ => Some (EId s, r)
            end
          else if ident_modelled s then Some (EId s, r)
          else None
      | TLParen :: r =>
          match p_assign f r with
          | Some (e, TRParen :: r') => Some (e, r')
          | _ => None
          end
      | _ => None
      end
  end.

(** Eight levels of recursion for every token: a token opens at most seven
    (from [p_assign] down to [p_primary]). *)
Definition parse_fuel (ts : list token) : nat := 8 * S (length ts).

(** An expression, with nothing left over. *)
Definition p_expression (ts : list token) : option expr :=
  match p_assign (parse_fuel ts) ts with
  | Some (e, []) => Some e
  | _ => None
  end.

(** What the engine makes of a piece of source text. *)
Inductive verdict (A : Type) :=
| Accept (a : A)
| SyntaxError
| NotModelled.
Arguments Accept {A} a.
Arguments SyntaxError {A}.
Arguments NotModelled {A}.

Definition is_word (w : string) (t : token) : bool :=
  match t with TId s => String.eqb s w | _ => false end.

(** No expression of the fragment holds a semicolon or a brace. *)
Definition expr_token (t : token) : bool :=
  match t with
  | TSemi | TLBrace | TRBrace => false
  | _ => true
  end.

Fixpoint span_expr (ts : list token) : list token * list token :=
  match ts with
  | t :: r =>
      if expr_token t then let '(u, r') := span_expr r in (t :: u, r')
      else ([], ts)
  | [] => ([], [])
  end.

Definition starts_statement (ts : list token) : bool :=
  match ts with
  | TId w :: _ => mem w statement_keywords
  | _ => false
  end.

(** [return;] or [return e;].  The expression runs up to the semicolon.  A
    reserved word that begins a statement cannot follow [return] on the
    same line, whatever comes after it. *)
Definition p_return (ts : list token) : verdict (stmt * list token) :=
  match ts with
  | kw :: r =>
      if is_word "return" kw then
        if starts_statement r then SyntaxError
        else
          match span_expr r with
          | ([], TSemi :: r') => Accept (SReturn None, r')
          | (u, TSemi :: r') =>
              match p_expression u with
              | Some e => Accept (SReturn (Some e), r')
              | None => NotModelled
              end
          | _ => NotModelled
          end
      else NotModelled
  | [] => NotModelled
  end.

Definition kind (t : token) : nat :=
  match t with
  | TNum _ => 0 | TId _ => 1 | TLParen => 2 | TRParen => 3 | TLBrace => 4
  | TRBrace => 5 | TDot => 6 | TComma => 7 | TSemi => 8 | TAssign => 9
  | TPlus => 10 | TMinus => 11 | TStar => 12 | TSlash => 13 | TOrOr => 14
  end%nat.

(** [t] is the punctuator [k]. *)
Definition is_punct (k t : token) : bool := Nat.eqb (kind k) (kind t).

(** [} catch (p) {] *)
Definition p_catch (ts : list token) : option (string * list token) :=
  match ts with
  | t1 :: t2 :: t3 :: TId p :: t5 :: t6 :: r =>
      if is_punct TRBrace t1 && is_word "catch" t2 && is_punct TLParen t3
         && is_punct TRParen t5 && is_punct TLBrace t6 && binder_ok p
      then Some (p, r)
      else None
  | _ => None
  end.

Definition p_close (ts : list token) : bool :=
  match ts with
  | [t] => is_punct TRBrace t
  | _ => false
  end.

(** [try { return ...; } catch (p) { return ...; }] *)
Definition p_body (ts : list token) : verdict stmt :=
  match ts with
  | t1 :: t2 :: r =>
      if is_word "try" t1 && is_punct TLBrace t2 then
        match p_return r with
        | Accept (block, r1) =>
            match p_catch r1 with
            | Some (p, r2) =>
                match p_return r2 with
                | Accept (handler, r3) =>
                    if p_close r3 then Accept (STry block p handler)
                    else NotModelled
                | SyntaxError => SyntaxError
                | NotModelled => NotModelled
                end
            | None => NotModelled
            end
        | SyntaxError => SyntaxError
        | NotModelled => NotModelled
        end
      else NotModelled
  | _ => NotModelled
  end.

(** [new Function(p1, ..., pn, body)].  [SyntaxError] is the exception the
    constructor throws. *)
Definition Function_ctor (ps : list string) (text : string) : verdict func :=
  if forallb binder_ok ps then
    match lex text with
    | Some ts =>
        match p_body ts with
        | Accept s => Accept {| params := ps; body := s |}
        | SyntaxError => SyntaxError
        | NotModelled => NotModelled
        end
    | None => NotModelled
    end
  else NotModelled.

(** *** Evaluation *)

(** The global state a function can reach: the properties that formulas
    have put on the global object, and the writable properties of the Math
    object.  Host-defined globals (window, document, ...) are not part of
    the model. *)
Record Realm := {
  globals : gmap string value;
  math : gmap string value
}.

Definition initial_math : gmap string value :=
  <["abs" := VFun Babs]> (<["sqrt" := VFun Bsqrt]> (<["sin" := VFun Bsin]>
  (<["cos" := VFun Bcos]> (<["exp" := VFun Bexp]> ∅)))).

Definition initial_realm : Realm :=
  {| globals := ∅; math := initial_math |}.

(** [Math.PI] and [Math.E] are not writable. *)
Definition math_constant (p : string) : option float :=
  if String.eqb p "PI" then Some (F64.of_decimal 3141592653589793 15)
  else if String.eqb p "E" then Some (F64.of_decimal 2718281828459045 15)
  else None.

(** ECMAScript fixes [sin], [cos] and [exp] at NaN, the zeros and the
    infinities and leaves the other results to the implementation
    ("implementation-approximated"). *)
Record MathImpl := {
  approx_sin : float -> float;
  approx_cos : float -> float;
  approx_exp : float -> float
}.

Definition one : float := F64.of_Z 1.

Section Eval.

Variable impl : MathImpl.

Definition Math_sin (a : float) : float :=
  match a with
  | S754_nan | S754_infinity _ => F64.nan
  | S754_zero _ => a
  | S754_finite _ _ _ => approx_sin impl a
  end.

Definition Math_cos (a : float) : float :=
  match a with
  | S754_nan | S754_infinity _ => F64.nan
  | S754_zero _ => one
  | S754_finite _ _ _ => approx_cos impl a
  end.

Definition Math_exp (a : float) : float :=
  match a with
  | S754_nan => F64.nan
  | S754_zero _ => one
  | S754_infinity false => F64.inf
  | S754_infinity true => F64.zero
  | S754_finite _ _ _ => approx_exp impl a
  end.

(** A missing argument is [undefined]; further arguments are ignored. *)
Definition apply_builtin (b : builtin) (args : list value) : float :=
  let a := ToNumber (hd VUndef args) in
  match b with
  | Babs => F64.abs a
  | Bsqrt => F64.sqrt a
  | Bsin => Math_sin a
  | Bcos => Math_cos a
  | Bexp => Math_exp a
  end.

(** The state of one call: the scope chain of the function, innermost
    binding first, and the realm. *)
Record state := { scope : list (string * value); realm : Realm }.

Inductive completion (A : Type) :=
| Normal (a : A)
| Abrupt.            (* an exception was thrown *)
Arguments Normal {A} a.
Arguments Abrupt {A}.

Definition M (A : Type) : Type := state -> completion A * state.

Definition ret {A} (a : A) : M A := fun st => (Normal a, st).
Definition throw {A} : M A := fun st => (Abrupt, st).
Definition bind {A B} (m : M A) (k : A -> M B) : M B :=
  fun st =>
    match m st with
    | (Normal a, st') => k a st'
    | (Abrupt, st') => (Abrupt, st')
    end.

Notation "'let*' x ':=' m 'in' k" := (bind m (fun x => k))
  (at level 10, x name, m at level 100, k at level 200).

Fixpoint lookup_scope (n : string) (sc : list (string * value)) : option value :=
  match sc with
  | [] => None
  | (k, v) :: sc' => if String.eqb k n then Some v else lookup_scope n sc'
  end.

Fixpoint update_scope (n : string) (v : value) (sc : list (string * value))
  : list (string * value) :=
  match sc with
  | [] => []
  | (k, w) :: sc' =>
      if String.eqb k n then (k, v) :: sc' else (k, w) :: update_scope n v sc'
  end.

(** An identifier that is bound nowhere is a ReferenceError. *)
Definition get_ident (n : string) : M value :=
  fun st =>
    match lookup_scope n (scope st) with
    | Some v => (Normal v, st)
    | None =>
        if String.eqb n "Math" then (Normal VMath, st)
        else match globals (realm st) !! n with
             | Some v => (Normal v, st)
             | None => (Abrupt, st)
             end
    end.

(** Sloppy mode: assigning to an unbound identifier creates a property of
    the global object. *)
Definition put_ident (n : string) (v : value) : M value :=
  fun st =>
    match lookup_scope n (scope st) with
    | Some _ =>
        (Normal v, {| scope := update_scope n v (scope st); realm := realm st |})
    | None =>
        (Normal v,
         {| scope := scope st;
            realm := {| globals := <[n := v]> (globals (realm st));
                        math := math (realm st) |} |})
    end.

Definition get_math (p : string) : M value :=
  fun st =>
    match math_constant p with
    | Some c => (Normal (VNum c), st)
    | None =>
        match math (realm st) !! p with
        | Some v => (Normal v, st)
        | None => (Normal VUndef, st)
        end
    end.

(** Sloppy mode: a write to a read-only property is ignored. *)
Definition put_math (p : string) (v : value) : M value :=
  fun st =>
    match math_constant p with
    | Some _ => (Normal v, st)
    | None =>
        (Normal v,
         {| scope := scope st;
            realm := {| globals := globals (realm st);
                        math := <[p := v]> (math (realm st)) |} |})
    end.

Definition arith (op : binop) (l r : value) : value :=
  match op with
  | Add =>
      if is_primitive_number l && is_primitive_number r
      then VNum (F64.add (ToNumber l) (ToNumber r))
      else VText
  | Sub => VNum (F64.sub (ToNumber l) (ToNumber r))
  | Mul => VNum (F64.mul (ToNumber l) (ToNumber r))
  | Div => VNum (F64.div (ToNumber l) (ToNumber r))
  end.

Definition call_value (f : value) (args : list value) : M value :=
  match f with
  | VFun b => ret (VNum (apply_builtin b args))
  | _ => throw            (* TypeError: not a function *)
  end.

Fixpoint eval (e : expr) : M value :=
  match e with
  | ENum n => ret (VNum n)
  | EId n => get_ident n
  | EMath p => get_math p
  | ECall callee args =>
      let* f := eval callee in
      let* vs := (fix eval_args (l : list expr) : M (list value) :=
                    match l with
                    | [] => ret []
                    | a :: l' =>
                        let* v := eval a in
                        let* vs := eval_args l' in
                        ret (v :: vs)
                    end) args in
      call_value f vs
  | ENeg e1 => let* v := eval e1 in ret (VNum (F64.neg (ToNumber v)))
  | EPos e1 => let* v := eval e1 in ret (VNum (ToNumber v))
  | EBin op e1 e2 => let* l := eval e1 in let* r := eval e2 in ret (arith op l r)
  | EOr e1 e2 => let* l := eval e1 in if ToBoolean l then ret l else eval e2
  | EAssign n e1 => let* v := eval e1 in put_ident n v
  | EAssignMath p e1 => let* v := eval e1 in put_math p v
  end.

Definition eval_args : list expr -> M (list value) :=
  fix eval_args (l : list expr) : M (list value) :=
    match l with
    | [] => ret []
    | a :: l' =>
        let* v := eval a in
        let* vs := eval_args l' in
        ret (v :: vs)
    end.

(** Running a function body.  [Normal v]: the function returned [v]. *)
Fixpoint exec (s : stmt) : M value :=
  match s with
  | SReturn None => ret VUndef
  | SReturn (Some e) => eval e
  | STry block p handler =>
      fun st =>
        match exec block st with
        | (Normal v, st') => (Normal v, st')
        | (Abrupt, st') =>
            exec handler {| scope := (p, VError) :: scope st'; realm := realm st' |}
        end
  end.

(** Parameters are bound to the arguments in order; a later parameter of
    the same name shadows an earlier one. *)
Fixpoint bind_params (ps : list string) (args : list value)
  : list (string * value) :=
  match ps with
  | [] => []
  | p :: ps' => bind_params ps' (tl args) ++ [(p, hd VUndef args)]
  end.

(** [f(a1, ..., an)] in realm [r]: the completion and the realm after. *)
Definition call (f : func) (args : list value) (r : Realm)
  : completion value * Realm :=
  let '(c, st) := exec (body f) {| scope := bind_params (params f) args; realm := r |} in
  (c, realm st).

End Eval.

Arguments Normal {A} a.
Arguments Abrupt {A}.

End JS.

(** ** three.js objects

    Only what the component reads or writes.  The [position] attribute of a
    geometry is a [Float32Array] with three entries per vertex; it is kept as
    the list of its [(x, y, z)] triples, which the update loop walks with a
    stride of three. *)

Module Three.

Record Vertex := { vx : float; vy : float; vz : float }.

Record BufferGeometry := {
  position : list Vertex;
  needsUpdate : bool
}.

Record MeshPhongMaterial := {
  mat_color : string;
  emissive : string * float;     (* a colour times a scalar *)
  opacity : float;
  wireframe : bool
}.

Record Mesh := { geometry : BufferGeometry; material : MeshPhongMaterial }.

(** The arguments the projection matrix was last computed from. *)
Record Projection := {
  p_fov : float; p_aspect : float; p_near : float; p_far : float
}.

Record PerspectiveCamera := {
  fov : float;                   (* vertical field of view, degrees *)
  aspect : float;
  near : float;
  far : float;
  projectionMatrix : Projection
}.

Definition updateProjectionMatrix (c : PerspectiveCamera) : PerspectiveCamera :=
  {| fov := fov c; aspect := aspect c; near := near c; far := far c;
     projectionMatrix := {| p_fov := fov c; p_aspect := aspect c;
                            p_near := near c; p_far := far c |} |}.

Definition new_PerspectiveCamera (f a n fr : float) : PerspectiveCamera :=
  updateProjectionMatrix
    {| fov := f; aspect := a; near := n; far := fr;
       projectionMatrix := {| p_fov := f; p_aspect := a; p_near := n; p_far := fr |} |}.

Record WebGLRenderer := {
  width : Z;
  height : Z;
  frames : nat                   (* calls of render so far *)
}.

Record OrbitControls := { updates : nat }.

Inductive Object3D := Points | GridHelper | AmbientLight | PointLight | WireLayer | SolidLayer.

Record Scene := { children : list Object3D }.

Definition clone (g : BufferGeometry) : BufferGeometry :=
  {| position := position g; needsUpdate := needsUpdate g |}.

End Three.

Import Three.

(** ** The component and its host *)

Record Rig := {
  scene : Scene;
  camera : PerspectiveCamera;
  renderer : WebGLRenderer;
  controls : OrbitControls
}.

(** The fields of [GraphVisualizerComponent].  [scene], [camera], [renderer]
    and [controls] are assigned together by [initThree]; [three] is [None]
    until then. *)
Record Component := {
  formula : string;
  color : string;
  isAnimated : bool;
  timeScale : float;
  three : option Rig;
  wireframeMesh : option Mesh;
  solidMesh : option Mesh;
  animationFrameId : option nat;
  startTime : Z;
  compiledFunc : option JS.func
}.

(** The browser around the component. *)
Record Browser := {
  now : Z;                         (* Date.now(), milliseconds *)
  frameRequests : list nat;        (* handles of the pending animation frame
                                      callbacks; each callback is
                                      [() => this.animate()] *)
  nextHandle : nat;
  resizeListener : bool;           (* resizeHandler is registered on window *)
  clientWidth : Z;                 (* size of the container element *)
  clientHeight : Z;
  realm : JS.Realm                 (* global scope of the page *)
}.

Record World := { comp : Component; env : Browser }.

(** What running a method does: it completes, it throws and leaves the world
    as it was at the throw, or it meets text outside the modelled fragment of
    JavaScript. *)
Inductive result :=
| Ok (w : World)
| Throws (w : World)
| OutOfModel.

Definition and_then (r : result) (k : World -> result) : result :=
  match r with
  | Ok w => k w
  | other => other
  end.

Notation "r >>= k" := (and_then r k) (at level 50, left associativity).

(** Field updates. *)
Definition with_comp (c : Component) (w : World) : World :=
  {| comp := c; env := env w |}.

Definition with_env (b : Browser) (w : World) : World :=
  {| comp := comp w; env := b |}.

Definition set_formula (s : string) (c : Component) : Component :=
  {| formula := s; color := color c; isAnimated := isAnimated c;
     timeScale := timeScale c; three := three c;
     wireframeMesh := wireframeMesh c; solidMesh := solidMesh c;
     animationFrameId := animationFrameId c; startTime := startTime c;
     compiledFunc := compiledFunc c |}.

Definition set_color (s : string) (c : Component) : Component :=
  {| formula := formula c; color := s; isAnimated := isAnimated c;
     timeScale := timeScale c; three := three c;
     wireframeMesh := wireframeMesh c; solidMesh := solidMesh c;
     animationFrameId := animationFrameId c; startTime := startTime c;
     compiledFunc := compiledFunc c |}.

Definition set_isAnimated (b : bool) (c : Component) : Component :=
  {| formula := formula c; color := color c; isAnimated := b;
     timeScale := timeScale c; three := three c;
     wireframeMesh := wireframeMesh c; solidMesh := solidMesh c;
     animationFrameId := animationFrameId c; startTime := startTime c;
     compiledFunc := compiledFunc c |}.

Definition set_timeScale (k : float) (c : Component) : Component :=
  {| formula := formula c; color := color c; isAnimated := isAnimated c;
     timeScale := k; three := three c;
     wireframeMesh := wireframeMesh c; solidMesh := solidMesh c;
     animationFrameId := animationFrameId c; startTime := startTime c;
     compiledFunc := compiledFunc c |}.

Definition set_three (r : option Rig) (c : Component) : Component :=
  {| formula := formula c; color := color c; isAnimated := isAnimated c;
     timeScale := timeScale c; three := r;
     wireframeMesh := wireframeMesh c; solidMesh := solidMesh c;
     animationFrameId := animationFrameId c; startTime := startTime c;
     compiledFunc := compiledFunc c |}.

Definition set_meshes (wm sm : option Mesh) (c : Component) : Component :=
  {| formula := formula c; color := color c; isAnimated := isAnimated c;
     timeScale := timeScale c; three := three c;
     wireframeMesh := wm; solidMesh := sm;
     animationFrameId := animationFrameId c; startTime := startTime c;
     compiledFunc := compiledFunc c |}.

Definition set_animationFrameId (h : option nat) (c : Component) : Component :=
  {| formula := formula c; color := color c; isAnimated := isAnimated c;
     timeScale := timeScale c; three := three c;
     wireframeMesh := wireframeMesh c; solidMesh := solidMesh c;
     animationFrameId := h; startTime := startTime c;
     compiledFunc := compiledFunc c |}.

Definition set_compiledFunc (f : option JS.func) (c : Component) : Component :=
  {| formula := formula c; color := color c; isAnimated := isAnimated c;
     timeScale := timeScale c; three := three c;
     wireframeMesh := wireframeMesh c; solidMesh := solidMesh c;
     animationFrameId := animationFrameId c; startTime := startTime c;
     compiledFunc := f |}.

Definition set_realm (r : JS.Realm) (b : Browser) : Browser :=
  {| now := now b; frameRequests := frameRequests b; nextHandle := nextHandle b;
     resizeListener := resizeListener b; clientWidth := clientWidth b;
     clientHeight := clientHeight b; realm := r |}.

Definition set_frameRequests (l : list nat) (n : nat) (b : Browser) : Browser :=
  {| now := now b; frameRequests := l; nextHandle := n;
     resizeListener := resizeListener b; clientWidth := clientWidth b;
     clientHeight := clientHeight b; realm := realm b |}.

Definition set_resizeListener (on : bool) (b : Browser) : Browser :=
  {| now := now b; frameRequests := frameRequests b; nextHandle := nextHandle b;
     resizeListener := on; clientWidth := clientWidth b;
     clientHeight := clientHeight b; realm := realm b |}.

Definition set_now (t : Z) (b : Browser) : Browser :=
  {| now := t; frameRequests := frameRequests b; nextHandle := nextHandle b;
     resizeListener := resizeListener b; clientWidth := clientWidth b;
     clientHeight := clientHeight b; realm := realm b |}.

Definition set_client (w h : Z) (b : Browser) : Browser :=
  {| now := now b; frameRequests := frameRequests b; nextHandle := nextHandle b;
     resizeListener := resizeListener b; clientWidth := w;
     clientHeight := h; realm := realm b |}.

(** ** The methods of the component *)

Section GraphVisualizer.

(** The engine's approximations of the transcendental functions. *)
Variable impl : JS.MathImpl.

(** The vertices of [new THREE.PlaneGeometry(20, 20, 150, 150)] after
    [rotateX(-Math.PI / 2)], as three.js lays them out. *)
Variable planeGeometry : list Vertex.

(** Field initialisers of the class. *)
Definition construct (b : Browser) : World :=
  {| comp := {| formula := "Math.sin(Math.sqrt(x*x + y*y))";
                color := "#22d3ee";
                isAnimated := true;
                timeScale := F64.of_Z 1;
                three := None;
                wireframeMesh := None;
                solidMesh := None;
                animationFrameId := None;
                startTime := now b;
                compiledFunc := None |};
     env := b |}.

Definition template (f : string) : string :=
  ("try { return " ++ f ++ "; } catch(e) { return 0; }")%string.

(** [compileFormula]: the constructor's SyntaxError is caught and leaves
    [compiledFunc] null. *)
Definition compileFormula (w : World) : result :=
  match JS.Function_ctor ["x"; "y"; "t"]%string (template (formula (comp w))) with
  | JS.Accept f => Ok (with_comp (set_compiledFunc (Some f) (comp w)) w)
  | JS.SyntaxError => Ok (with_comp (set_compiledFunc None (comp w)) w)
  | JS.NotModelled => OutOfModel
  end.

Definition initThree (w : World) : result :=
  let cw := clientWidth (env w) in
  let ch := clientHeight (env w) in
  let aspect := F64.div (F64.of_Z cw) (F64.of_Z ch) in
  let rig :=
    {| scene := {| children := [Points; GridHelper; AmbientLight; PointLight] |};
       camera := new_PerspectiveCamera (F64.of_Z 60) aspect
                   (F64.of_decimal 1 1) (F64.of_Z 2000);
       renderer := {| width := cw; height := ch; frames := 0 |};
       controls := {| updates := 0 |} |} in
  Ok (with_comp (set_three (Some rig) (comp w)) w).

(** [vertices[i + 1] = isNaN(y) ? 0 : y]: the store converts to a Number
    and rounds to single precision. *)
Definition stored_height (y : JS.value) : float :=
  F64.fround (JS.ToNumber (if JS.isNaN y then JS.VNum F64.zero else y)).

Definition set_vy (h : float) (v : Vertex) : Vertex :=
  {| vx := vx v; vy := h; vz := vz v |}.

(** The loop over one position buffer.  [JS.Abrupt]: the evaluator threw;
    the vertices before it keep their new heights. *)
Fixpoint updateVertices (f : JS.func) (t : float) (vs : list Vertex) (r : JS.Realm)
  : JS.completion unit * list Vertex * JS.Realm :=
  match vs with
  | [] => (JS.Normal tt, [], r)
  | v :: vs' =>
      match JS.call impl f [JS.VNum (vx v); JS.VNum (vz v); JS.VNum t] r with
      | (JS.Normal y, r') =>
          let '(c, vs'', r'') := updateVertices f t vs' r' in
          (c, set_vy (stored_height y) v :: vs'', r'')
      | (JS.Abrupt, r') => (JS.Abrupt, v :: vs', r')
      end
  end.

(** The body of [geometries.forEach] for one geometry. *)
Definition updateGeometry (f : JS.func) (t : float) (g : BufferGeometry) (r : JS.Realm)
  : JS.completion unit * BufferGeometry * JS.Realm :=
  match updateVertices f t (position g) r with
  | (JS.Normal _, vs, r') => (JS.Normal tt, {| position := vs; needsUpdate := true |}, r')
  | (JS.Abrupt, vs, r') => (JS.Abrupt, {| position := vs; needsUpdate := needsUpdate g |}, r')
  end.

Definition set_geometry (g : BufferGeometry) (m : Mesh) : Mesh :=
  {| geometry := g; material := material m |}.

Definition updateGraph (t : float) (w : World) : result :=
  match wireframeMesh (comp w), compiledFunc (comp w) with
  | Some wm, Some f =>
      match solidMesh (comp w) with
      | None => Throws w
      | Some sm =>
          match updateGeometry f t (geometry wm) (realm (env w)) with
          | (JS.Normal _, gw, r1) =>
              match updateGeometry f t (geometry sm) r1 with
              | (JS.Normal _, gs, r2) =>
                  Ok {| comp := set_meshes (Some (set_geometry gw wm))
                                  (Some (set_geometry gs sm)) (comp w);
                        env := set_realm r2 (env w) |}
              | (JS.Abrupt, gs, r2) =>
                  Throws {| comp := set_meshes (Some (set_geometry gw wm))
                                      (Some (set_geometry gs sm)) (comp w);
                            env := set_realm r2 (env w) |}
              end
          | (JS.Abrupt, gw, r1) =>
              Throws {| comp := set_meshes (Some (set_geometry gw wm)) (Some sm) (comp w);
                        env := set_realm r1 (env w) |}
          end
      end
  | _, _ => Ok w
  end.

Definition add_children (l : list Object3D) (r : Rig) : Rig :=
  {| scene := {| children := children (scene r) ++ l |};
     camera := camera r; renderer := renderer r; controls := controls r |}.

Definition createGraphMeshes (w : World) : result :=
  let c := comp w in
  let geometry := {| position := planeGeometry; needsUpdate := false |} in
  let wireMaterial :=
    {| mat_color := color c; wireframe := true; opacity := F64.of_decimal 8 1;
       emissive := (color c, F64.of_decimal 4 1) |} in
  let solidMaterial :=
    {| mat_color := color c; wireframe := false; opacity := F64.of_decimal 15 2;
       emissive := (color c, F64.of_decimal 1 1) |} in
  let wm := {| geometry := geometry; material := wireMaterial |} in
  let sm := {| geometry := clone geometry; material := solidMaterial |} in
  let w1 := with_comp (set_meshes (Some wm) (Some sm) c) w in
  match three c with
  | None => Throws w1
  | Some rig =>
      updateGraph F64.zero
        (with_comp (set_three (Some (add_children [WireLayer; SolidLayer] rig)) (comp w1)) w1)
  end.

Definition recolor (col : string) (k : float) (m : Mesh) : Mesh :=
  {| geometry := geometry m;
     material := {| mat_color := col; emissive := (col, k);
                    opacity := opacity (material m);
                    wireframe := wireframe (material m) |} |}.

Definition updateMaterials (w : World) : result :=
  let c := comp w in
  match wireframeMesh c with
  | None => Ok w
  | Some wm =>
      match solidMesh c with
      | None =>
          Throws (with_comp
                    (set_meshes (Some (recolor (color c) (F64.of_decimal 4 1) wm)) None c)
                    w)
      | Some sm =>
          Ok (with_comp (set_meshes (Some (recolor (color c) (F64.of_decimal 4 1) wm))
                           (Some (recolor (color c) (F64.of_decimal 1 1) sm)) c) w)
      end
  end.

Definition requestAnimationFrame (w : World) : World :=
  let h := nextHandle (env w) in
  {| comp := set_animationFrameId (Some h) (comp w);
     env := set_frameRequests (frameRequests (env w) ++ [h]) (S h) (env w) |}.

Definition cancelAnimationFrame (h : nat) (b : Browser) : Browser :=
  set_frameRequests (filter (fun k => negb (Nat.eqb k h)) (frameRequests b))
    (nextHandle b) b.

Definition tick_controls (r : Rig) : Rig :=
  {| scene := scene r; camera := camera r; renderer := renderer r;
     controls := {| updates := S (updates (controls r)) |} |}.

Definition render (r : Rig) : Rig :=
  {| scene := scene r; camera := camera r;
     renderer := {| width := width (renderer r); height := height (renderer r);
                    frames := S (frames (renderer r)) |};
     controls := controls r |}.

(** [this.controls.update()] and [this.renderer.render(...)]: a TypeError
    when [initThree] has not run. *)
Definition on_rig (f : Rig -> Rig) (w : World) : result :=
  match three (comp w) with
  | Some r => Ok (with_comp (set_three (Some (f r)) (comp w)) w)
  | None => Throws w
  end.

(** [(Date.now() - this.startTime) / 1000 * this.timeScale] *)
Definition elapsed (w : World) : float :=
  F64.mul
    (F64.div (F64.sub (F64.of_Z (now (env w))) (F64.of_Z (startTime (comp w))))
             (F64.of_Z 1000))
    (timeScale (comp w)).

Definition animate (w : World) : result :=
  on_rig tick_controls (requestAnimationFrame w) >>= fun w1 =>
  (if isAnimated (comp w1) then updateGraph (elapsed w1) w1 else Ok w1) >>= fun w2 =>
  on_rig render w2.

(** The keys of the [SimpleChanges] object. *)
Record SimpleChanges := { ch_formula : bool; ch_color : bool }.

Definition ngOnChanges (changes : SimpleChanges) (w : World) : result :=
  match three (comp w) with
  | Some _ =>
      (if ch_formula changes then
         compileFormula w >>= fun w1 =>
         if isAnimated (comp w1) then Ok w1 else updateGraph F64.zero w1
       else Ok w) >>= fun w2 =>
      if ch_color changes then updateMaterials w2 else Ok w2
  | None => Ok w
  end.

Definition addResizeListener (w : World) : result :=
  Ok (with_env (set_resizeListener true (env w)) w).

Definition ngAfterViewInit (w : World) : result :=
  initThree w >>= compileFormula >>= createGraphMeshes >>= animate
  >>= addResizeListener.

Definition getSnapshot (w : World) : result := on_rig render w.

Definition resize_rig (cw ch : Z) (r : Rig) : Rig :=
  {| scene := scene r;
     camera := updateProjectionMatrix
                 {| fov := fov (camera r);
                    aspect := F64.div (F64.of_Z cw) (F64.of_Z ch);
                    near := near (camera r); far := far (camera r);
                    projectionMatrix := projectionMatrix (camera r) |};
     renderer := {| width := cw; height := ch; frames := frames (renderer r) |};
     controls := controls r |}.

Definition onWindowResize (w : World) : result :=
  on_rig (resize_rig (clientWidth (env w)) (clientHeight (env w))) w.

(** [if (this.animationFrameId)]: [undefined] and [0] are falsy. *)
Definition ngOnDestroy (w : World) : result :=
  let b :=
    match animationFrameId (comp w) with
    | Some (S h) => cancelAnimationFrame (S h) (env w)
    | _ => env w
    end in
  Ok (with_env (set_resizeListener false b) w).

(** The evaluator's result at a sample, in a given realm. *)
Definition output (f : JS.func) (x z t : float) (r : JS.Realm)
  : JS.completion JS.value :=
  fst (JS.call impl f [JS.VNum x; JS.VNum z; JS.VNum t] r).

(** The heights of a layer, vertex by vertex. *)
Definition heights (m : Mesh) : list float := map vy (position (geometry m)).

(** The sample coordinates of a layer. *)
Definition samples (m : Mesh) : list (float * float) :=
  map (fun v => (vx v, vz v)) (position (geometry m)).

(** *** The host's calls

    Angular writes a bound input and then calls [ngOnChanges] with the key
    of the input; the browser runs the pending animation frame callbacks and
    dispatches resize events.  An exception that escapes a callback is
    reported by the host and the page goes on. *)

Definition settle (r : result) : option World :=
  match r with
  | Ok w | Throws w => Some w
  | OutOfModel => None
  end.

Definition setFormula (text : string) (w : World) : result :=
  ngOnChanges {| ch_formula := true; ch_color := false |}
    (with_comp (set_formula text (comp w)) w).

Definition setColor (c : string) (w : World) : result :=
  ngOnChanges {| ch_formula := false; ch_color := true |}
    (with_comp (set_color c (comp w)) w).

Definition setIsAnimated (b : bool) (w : World) : result :=
  ngOnChanges {| ch_formula := false; ch_color := false |}
    (with_comp (set_isAnimated b (comp w)) w).

Definition setTimeScale (k : float) (w : World) : result :=
  ngOnChanges {| ch_formula := false; ch_color := false |}
    (with_comp (set_timeScale k (comp w)) w).

(** One animation frame: every callback that was pending when the frame
    began runs once, unless it has been cancelled meanwhile. *)
Fixpoint run_callbacks (hs : list nat) (w : World) : option World :=
  match hs with
  | [] => Some w
  | h :: hs' =>
      if existsb (Nat.eqb h) (frameRequests (env w)) then
        match settle (animate (with_env (cancelAnimationFrame h (env w)) w)) with
        | Some w' => run_callbacks hs' w'
        | None => None
        end
      else run_callbacks hs' w
  end.

Definition animationFrame (w : World) : option World :=
  run_callbacks (frameRequests (env w)) w.

(** The container takes a new size and the window fires [resize]. *)
Definition windowResize (cw ch : Z) (w : World) : option World :=
  let w1 := with_env (set_client cw ch (env w)) w in
  if resizeListener (env w1) then settle (onWindowResize w1) else Some w1.

Definition clock (dt : Z) (w : World) : World :=
  with_env (set_now (now (env w) + dt) (env w)) w.

Inductive event :=
| SetFormula (text : string)
| SetColor (c : string)
| SetIsAnimated (b : bool)
| SetTimeScale (k : float)
| Snapshot
| AnimationFrame
| WindowResize (cw ch : Z)
| Clock (dt : Z).

(** Events of the browser, as opposed to calls made by the parent
    component; only these can still arrive after [ngOnDestroy]. *)
Definition browser_event (e : event) : bool :=
  match e with
  | AnimationFrame | WindowResize _ _ | Clock _ => true
  | _ => false
  end.

Definition handle (e : event) (w : World) : option World :=
  match e with
  | SetFormula text => settle (setFormula text w)
  | SetColor c => settle (setColor c w)
  | SetIsAnimated b => settle (setIsAnimated b w)
  | SetTimeScale k => settle (setTimeScale k w)
  | Snapshot => settle (getSnapshot w)
  | AnimationFrame => animationFrame w
  | WindowResize cw ch => windowResize cw ch w
  | Clock dt => Some (clock dt w)
  end.

(** The life of a component: constructed, inputs bound, view initialised,
    then events until it is destroyed. *)
Inductive phase := Fresh | Live | Destroyed.

Definition idle (b : Browser) : Prop :=
  frameRequests b = [] /\ resizeListener b = false /\ (0 < nextHandle b)%nat.

Inductive reachable : phase -> World -> Prop :=
| reach_new b :
    idle b -> reachable Fresh (construct b)
| reach_bind w e w' :
    reachable Fresh w -> e <> Snapshot ->
    handle e w = Some w' -> reachable Fresh w'
| reach_init w w' :
    reachable Fresh w -> settle (ngAfterViewInit w) = Some w' -> reachable Live w'
| reach_event w e w' :
    reachable Live w -> handle e w = Some w' -> reachable Live w'
| reach_destroy w w' :
    reachable Live w -> settle (ngOnDestroy w) = Some w' -> reachable Destroyed w'
| reach_discard w w' :
    reachable Fresh w -> settle (ngOnDestroy w) = Some w' -> reachable Destroyed w'
| reach_after w e w' :
    reachable Destroyed w -> browser_event e = true ->
    handle e w = Some w' -> reachable Destroyed w'.

End GraphVisualizer.

(** ** A page to run examples on *)

(** An engine with first-order approximations; the examples below do not
    depend on them. *)
Definition coarse : JS.MathImpl :=
  {| JS.approx_sin := fun a => a;
     JS.approx_cos := fun _ => JS.one;
     JS.approx_exp := fun a => F64.add JS.one a |}.

Definition vertex (x z : Z) : Vertex :=
  {| vx := F64.of_Z x; vy := F64.zero; vz := F64.of_Z z |}.

(** A short position buffer: the sample (2, 3) and the origin. *)
Definition patch : list Vertex := [vertex 2 3; vertex 0 0].

(** A freshly loaded page, at time 0. *)
Definition page : Browser :=
  {| now := 0; frameRequests := []; nextHandle := 1; resizeListener := false;
     clientWidth := 800; clientHeight := 600; realm := JS.initial_realm |}.

(** The component on [page] once its view is initialised, with [text] bound
    to the [formula] input. *)
Definition mounted (text : string) : option World :=
  match handle coarse (SetFormula text) (construct page) with
  | Some w => settle (ngAfterViewInit coarse patch w)
  | None => None
  end.

Definition demo (text : string) : World :=
  match mounted text with
  | Some w => w
  | None => construct page
  end.

(** [x*x - y*y] *)
Definition saddle : JS.expr :=
  JS.EBin JS.Sub (JS.EBin JS.Mul (JS.EId "x") (JS.EId "x"))
                 (JS.EBin JS.Mul (JS.EId "y") (JS.EId "y")).

(** [Math.sin(x)/0] *)
Definition sin_over_zero : JS.expr :=
  JS.EBin JS.Div (JS.ECall (JS.EMath "sin") [JS.EId "x"]) (JS.ENum F64.zero).

Definition wire_heights (w : World) : option (list float) :=
  option_map heights (wireframeMesh (comp w)).

Definition solid_heights (w : World) : option (list float) :=
  option_map heights (solidMesh (comp w)).

(** ** Vocabulary of the properties *)

Module Shape.
Import JS.

Definition prefix_tokens : list token :=
  [TId "try"; TLBrace; TId "return"].

Definition suffix_text : string := "; } catch(e) { return 0; }".

Definition suffix_tokens : list token :=
  [TSemi; TRBrace; TId "catch"; TLParen; TId "e"; TRParen; TLBrace;
   TId "return"; TNum F64.zero; TSemi; TRBrace].

Definition no_lbrace (ts : list token) : Prop :=
  Forall (fun t => t <> TLBrace) ts.

(** The function that the template yields for the formula [oe]. *)
Definition guard (oe : option expr) : func :=
  {| params := ["x"; "y"; "t"]%string;
     body := STry (SReturn oe) "e" (SReturn (Some (ENum F64.zero))) |}.

End Shape.

Export Shape.

Definition xz (v : Vertex) : float * float := (vx v, vz v).

(** The evaluator, when there is one, was built from the template. *)
Definition guarded (w : World) : Prop :=
  match compiledFunc (comp w) with
  | Some f => exists oe, f = guard oe
  | None => True
  end.

(** The two layers exist together and sit on the same samples. *)
Definition paired (w : World) : Prop :=
  match wireframeMesh (comp w), solidMesh (comp w) with
  | Some wm, Some sm => samples wm = samples sm
  | None, None => True
  | _, _ => False
  end.

(** [v'] is [v] with its height replaced by the stored form of the
    evaluator's result at the sample of [v]. *)
Definition written (impl : JS.MathImpl) (f : JS.func) (t : float) (r : JS.Realm)
  (v v' : Vertex) : Prop :=
  exists y, output impl f (vx v) (vz v) t r = JS.Normal y /\
            v' = set_vy (stored_height y) v.

Definition positions (m : option Mesh) : option (list Vertex) :=
  option_map (fun m => position (geometry m)) m.

Definition no_nan (vs : list Vertex) : Prop :=
  Forall (fun v => F64.is_nan (vy v) = false) vs.

(** What [updateGraph] can change: the two position buffers and the realm. *)
Definition surface_step (w w' : World) : Prop :=
  exists wm sm r,
    w' = {| comp := set_meshes wm sm (comp w); env := set_realm r (env w) |} /\
    (wireframeMesh (comp w) = None <-> wm = None).

(** The state the animation loop keeps while the component is alive: the
    one pending frame request is the one whose handle is stored. *)
Definition scheduled (w : World) : Prop :=
  exists h,
    frameRequests (env w) = [h] /\ animationFrameId (comp w) = Some h /\
    (0 < h < nextHandle (env w))%nat.

Definition Inv (ph : phase) (w : World) : Prop :=
  guarded w /\ paired w /\ (0 < nextHandle (env w))%nat /\
  match ph with
  | Fresh =>
      three (comp w) = None /\ wireframeMesh (comp w) = None /\
      frameRequests (env w) = [] /\ resizeListener (env w) = false /\
      animationFrameId (comp w) = None
  | Live =>
      three (comp w) <> None /\ wireframeMesh (comp w) <> None /\ scheduled w
  | Destroyed =>
      frameRequests (env w) = [] /\ resizeListener (env w) = false
  end.

(** A step that leaves the bookkeeping of the loop alone. *)
Definition quiet (w w' : World) : Prop :=
  startTime (comp w') = startTime (comp w) /\
  animationFrameId (comp w') = animationFrameId (comp w) /\
  frameRequests (env w') = frameRequests (env w) /\
  nextHandle (env w') = nextHandle (env w) /\
  resizeListener (env w') = resizeListener (env w) /\
  (three (comp w) = None <-> three (comp w') = None) /\
  (wireframeMesh (comp w) = None <-> wireframeMesh (comp w') = None).

(** *** The view and the inputs *)

(** What [compileFormula] leaves in [compiledFunc] for a formula text:
    the function, or null after a SyntaxError. *)
Definition compiled (text : string) : option (option JS.func) :=
  match JS.Function_ctor ["x"; "y"; "t"]%string (template text) with
  | JS.Accept f => Some (Some f)
  | JS.SyntaxError => Some None
  | JS.NotModelled => None
  end.

(** The materials of the two layers for a colour. *)
Definition wire_material (col : string) : MeshPhongMaterial :=
  {| mat_color := col; wireframe := true; opacity := F64.of_decimal 8 1;
     emissive := (col, F64.of_decimal 4 1) |}.

Definition shell_material (col : string) : MeshPhongMaterial :=
  {| mat_color := col; wireframe := false; opacity := F64.of_decimal 15 2;
     emissive := (col, F64.of_decimal 1 1) |}.

(** The view as the inputs describe it: the evaluator is the compiled
    [formula], both layers sit on the samples of the plane and carry the
    materials of [color], the scene holds each layer once, and the camera's
    projection was computed from its current parameters. *)
Definition Shown (planeGeometry : list Vertex) (w : World) : Prop :=
  exists rig wm sm,
    three (comp w) = Some rig /\
    wireframeMesh (comp w) = Some wm /\ solidMesh (comp w) = Some sm /\
    compiled (formula (comp w)) = Some (compiledFunc (comp w)) /\
    samples wm = map xz planeGeometry /\ samples sm = map xz planeGeometry /\
    material wm = wire_material (color (comp w)) /\
    material sm = shell_material (color (comp w)) /\
    (no_nan planeGeometry ->
     no_nan (position (geometry wm)) /\ no_nan (position (geometry sm))) /\
    children (scene rig)
      = [Points; GridHelper; AmbientLight; PointLight; WireLayer; SolidLayer] /\
    fov (camera rig) = F64.of_Z 60 /\
    near (camera rig) = F64.of_decimal 1 1 /\
    far (camera rig) = F64.of_Z 2000 /\
    camera rig = updateProjectionMatrix (camera rig) /\
    aspect (camera rig)
      = F64.div (F64.of_Z (width (renderer rig))) (F64.of_Z (height (renderer rig))).

(** The camera and the renderer fit the container. *)
Definition Fitted (w : World) : Prop :=
  exists rig,
    three (comp w) = Some rig /\
    aspect (camera rig)
      = F64.div (F64.of_Z (clientWidth (env w))) (F64.of_Z (clientHeight (env w))) /\
    width (renderer rig) = clientWidth (env w) /\
    height (renderer rig) = clientHeight (env w).

Definition Sync (planeGeometry : list Vertex) (ph : phase) (w : World) : Prop :=
  match ph with
  | Fresh => compiledFunc (comp w) = None
  | Live => Shown planeGeometry w /\ Fitted w /\ resizeListener (env w) = true
  | Destroyed =>
      Shown planeGeometry w \/
      (three (comp w) = None /\ wireframeMesh (comp w) = None)
  end.

(** What [updateGraph] can change, with both layers in place. *)
Definition repaint (w w' : World) : Prop :=
  exists wm sm r,
    w' = {| comp := set_meshes (Some wm) (Some sm) (comp w);
            env := set_realm r (env w) |}.

(** A result with the colour input set in its state. *)
Definition coloured (c : string) (r : result) : result :=
  match r with
  | Ok w => Ok (with_comp (set_color c (comp w)) w)
  | Throws w => Throws (with_comp (set_color c (comp w)) w)
  | OutOfModel => OutOfModel
  end.

(** A text of blanks and tabs only; the empty text is one. *)
Fixpoint all_blank (s : string) : bool :=
  match s with
  | EmptyString => true
  | String c s' => JS.is_blank c && all_blank s'
  end.

(** An expression whose assignments all go to one of the names [ps]. *)
Fixpoint local_expr (ps : list string) (e : JS.expr) : bool :=
  match e with
  | JS.ENum _ | JS.EId _ | JS.EMath _ => true
  | JS.ECall f args => local_expr ps f && forallb (local_expr ps) args
  | JS.ENeg a | JS.EPos a => local_expr ps a
  | JS.EBin _ a b | JS.EOr a b => local_expr ps a && local_expr ps b
  | JS.EAssign n a => JS.mem n ps && local_expr ps a
  | JS.EAssignMath _ _ => false
  end.

Fixpoint local_stmt (ps : list string) (s : JS.stmt) : bool :=
  match s with
  | JS.SReturn None => true
  | JS.SReturn (Some e) => local_expr ps e
  | JS.STry block _ handler => local_stmt ps block && local_stmt ps handler
  end.

(** Every name of [ps] has a binding in the scope. *)
Definition binds (ps : list string) (sc : list (string * JS.value)) : Prop :=
  forall n, JS.mem n ps = true -> JS.lookup_scope n sc <> None.

(** The realm is as it was, and the names of [ps] are still bound. *)
Definition kept (ps : list string) (st st' : JS.state) : Prop :=
  JS.realm st' = JS.realm st /\ binds ps (JS.scope st').


(** ** The AI service

    [AiService] (services/ai.service.ts) wraps the calls of the Gemini
    client.  The client and the network are the outside world: what a call
    answers, or is rejected with, is an input here.  So are the two
    functions of the engine that [processError] relies on beyond property
    reads and string search. *)

Module Ai.

Inductive AiErrorType := QUOTA | PERMISSION | UNKNOWN.

(** The property names that the service reads. *)
Inductive key :=
| Kmessage | Kerror | Kdone | Kresponse | KgeneratedVideos | K0 | Kvideo | Kuri
| KgeneratedImages | Kimage | KimageBytes.

Definition name (k : key) : string :=
  match k with
  | Kmessage => "message" | Kerror => "error" | Kdone => "done"
  | Kresponse => "response" | KgeneratedVideos => "generatedVideos"
  | K0 => "0" | Kvideo => "video" | Kuri => "uri"
  | KgeneratedImages => "generatedImages" | Kimage => "image"
  | KimageBytes => "imageBytes"
  end.

(** A JavaScript value, as far as the service looks into it.  [Obj] lists
    the properties that a read finds, own or inherited; an array is the
    object of its indices. *)
Inductive any :=
| Undefined
| Null
| Str (s : string)
| Other (truthy : bool)            (* a number, a boolean, a bigint or a symbol *)
| Obj (props : list (string * any)).

Definition ToBoolean (v : any) : bool :=
  match v with
  | Undefined | Null | Str EmptyString => false
  | Other b => b
  | _ => true
  end.

Definition nullish (v : any) : bool :=
  match v with Undefined | Null => true | _ => false end.

Fixpoint lookup_prop (n : string) (props : list (string * any)) : any :=
  match props with
  | [] => Undefined
  | (k, v) :: rest => if String.eqb k n then v else lookup_prop n rest
  end.

(** [v?.k] for one of the names above.  A string has its first character
    at index 0 and none of the other names; numbers, booleans, bigints and
    symbols have none of them. *)
Definition get (v : any) (k : key) : any :=
  match v with
  | Obj props => lookup_prop (name k) props
  | Str (String c _) =>
      match k with K0 => Str (String c EmptyString) | _ => Undefined end
  | _ => Undefined
  end.

(** [v.k]: reading a property of [undefined] or [null] throws a
    TypeError, here [None]. *)
Definition read (v : any) (k : key) : option any :=
  if nullish v then None else Some (get v k).

(** [a || b] *)
Definition or_else (a b : any) : any := if ToBoolean a then a else b.

(** [String.prototype.includes] *)
Fixpoint includes (s pat : string) : bool :=
  String.prefix pat s ||
  match s with
  | EmptyString => false
  | String _ s' => includes s' pat
  end.

Definition is_ascii (c : ascii) : bool := (JS.code c <? 128)%nat.

Definition lower (c : ascii) : ascii :=
  if JS.between 65 90 c then ascii_of_nat (JS.code c + 32) else c.

(** [String.prototype.toLowerCase] on ASCII text; [None] for a text with
    other characters, whose case mapping is not modelled. *)
Fixpoint toLowerCase (s : string) : option string :=
  match s with
  | EmptyString => Some EmptyString
  | String c s' =>
      if is_ascii c then option_map (String (lower c)) (toLowerCase s') else None
  end.

(** What [JSON.stringify] makes of a value: a text, [undefined] (for
    [undefined], a function or a symbol), or a TypeError (a cyclic
    structure, a bigint). *)
Inductive stringified := Text (s : string) | NoText | Raises.

(** The error that [processError] builds. *)
Record AiError := { message : string; type : AiErrorType }.

(** How a call ends here: with a value, with a TypeError of the engine, or
    outside the model. *)
Inductive outcome (A : Type) :=
| Returns (a : A)
| TypeError
| Unmodelled.
Arguments Returns {A} a.
Arguments TypeError {A}.
Arguments Unmodelled {A}.

Section Service.

(** [JSON.stringify], which sees the own enumerable properties of a value
    only. *)
Variable JSON_stringify : any -> stringified.

Definition processError (error : any) : outcome AiError :=
  match JSON_stringify error with
  | Text s =>
      match toLowerCase s with
      | Some errStr =>
          let message :=
            or_else (get error Kmessage)
              (or_else (get (get error Kerror) Kmessage) (Str "Engine Link Failure")) in
          let type := UNKNOWN in
          let type :=
            if includes errStr "429" || includes errStr "quota" then QUOTA else type in
          let type :=
            if includes errStr "403" || includes errStr "permission" then PERMISSION
            else type in
          match message with
          | Str m => Returns {| message := m; type := type |}
          | _ => Unmodelled        (* new Error(v) for a v that is not a string *)
          end
      | None => Unmodelled
      end
  | NoText | Raises => TypeError
  end.

(** The TypeError object that the engine throws when a property of
    [undefined] or [null] is read. *)
Variable type_error : any.

(** [process.env.API_KEY] *)
Variable API_KEY : any.

(** What a call of the client answers. *)
Inductive answer :=
| Answers (operation : any)
| Rejects (error : any).

(** How the polling loop ends: the operation is done after a number of
    waits of 8000 ms, something is thrown, or the answers have run out
    while the loop is still waiting. *)
Inductive looped :=
| Done (operation : any) (waits : nat)
| Thrown (error : any)
| Starved.

(** [while (!operation.done) { ... }]; [polls] are the answers of
    [getVideosOperation], in the order of the calls. *)
Fixpoint wait_until_done (operation : any) (polls : list answer) (waits : nat)
  : looped :=
  if nullish operation then Thrown type_error
  else if ToBoolean (get operation Kdone) then Done operation waits
  else
    match polls with
    | [] => Starved
    | Rejects e :: _ => Thrown e
    | Answers op :: rest =>
        if nullish op then Thrown type_error
        else if ToBoolean (get op Kerror) then Thrown (get op Kerror)
        else wait_until_done op rest (S waits)
    end.

(** The text of a value in a template literal. *)
Definition ToString (v : any) : option string :=
  match v with
  | Undefined => Some "undefined"%string
  | Null => Some "null"%string
  | Str s => Some s
  | _ => None
  end.

(** How the promise of [generateMathVideo] settles. *)
Inductive settled :=
| Resolved (url : string)
| RejectedWith (e : outcome AiError)   (* with what [processError] returns,
                                          or with what it throws *)
| Pending
| OutOfModel.

Definition generateMathVideo (first : answer) (polls : list answer) : settled :=
  match first with
  | Rejects e => RejectedWith (processError e)
  | Answers operation =>
      match wait_until_done operation polls 0 with
      | Done op _ =>
          let downloadLink :=
            get (get (get (get op Kresponse) KgeneratedVideos) K0) Kvideo in
          match ToString (get downloadLink Kuri), ToString API_KEY with
          | Some link, Some k => Resolved (link ++ "&key=" ++ k)
          | _, _ => OutOfModel
          end
      | Thrown e => RejectedWith (processError e)
      | Starved => Pending
      end
  end.

(** [response.generatedImages[0].image.imageBytes] *)
Definition imageBytes (response : any) : option any :=
  match read response KgeneratedImages with
  | Some images =>
      match read images K0 with
      | Some first =>
          match read first Kimage with
          | Some image => read image KimageBytes
          | None => None
          end
      | None => None
      end
  | None => None
  end.

Definition generateMathImage (a : answer) : settled :=
  match a with
  | Rejects e => RejectedWith (processError e)
  | Answers response =>
      match imageBytes response with
      | Some bytes =>
          match ToString bytes with
          | Some text => Resolved ("data:image/jpeg;base64," ++ text)
          | None => OutOfModel
          end
      | None => RejectedWith (processError type_error)
      end
  end.

End Service.

End Ai.

(** [p] occurs in [s]. *)
Definition occurs (p s : string) : Prop :=
  exists a b, s = (a ++ p ++ b)%string.

(** [s] holds [p] in some capitalisation. *)
Definition mentions (p s : string) : Prop :=
  exists a m b, s = (a ++ m ++ b)%string /\ Ai.toLowerCase m = Some p.

(** ** Image generation in the application

    [AppComponent.generateAiImage] (app.component.ts) and the signals it
    writes.  The method awaits the service once; [generateAiImage_begin] is
    what runs before the await and [generateAiImage_settle] what runs when
    the promise of the service has settled, in whatever state the
    application is by then. *)

Module App.

Inductive ImagenStatus := Active | Quota | Error.

(** The callbacks that the method hands to [setTimeout]. *)
Inductive Task := CaptureLocalSnapshot.

Record Media := {
  imageUrl : option string;
  errorMessage : option string;
  isImageLoading : bool;
  imagenStatus : ImagenStatus;
  timeouts : list (nat * Task)        (* delay in ms, callback *)
}.

Definition generateAiImage_begin (s : Media) : Media :=
  {| imageUrl := imageUrl s; errorMessage := None; isImageLoading := true;
     imagenStatus := imagenStatus s; timeouts := timeouts s |}.

(** [url || null] *)
Definition or_null (url : string) : option string :=
  match url with
  | EmptyString => None
  | _ => Some url
  end.

Section Settle.

(** The [message] of the TypeError that [processError] throws. *)
Variable type_error_message : string.

(** [None]: the promise has settled in a way that is outside the model. *)
Definition generateAiImage_settle (r : Ai.settled) (s : Media) : option Media :=
  match r with
  | Ai.Resolved url =>
      Some {| imageUrl := or_null url; errorMessage := errorMessage s;
              isImageLoading := false; imagenStatus := Active;
              timeouts := timeouts s |}
  | Ai.RejectedWith (Ai.Returns err) =>
      match Ai.type err with
      | Ai.QUOTA =>
          Some {| imageUrl := imageUrl s;
                  errorMessage :=
                    Some "AI Quota Exhausted. Using local high-res snapshot."%string;
                  isImageLoading := false; imagenStatus := Quota;
                  timeouts := timeouts s ++ [(500%nat, CaptureLocalSnapshot)] |}
      | _ =>
          Some {| imageUrl := imageUrl s; errorMessage := Some (Ai.message err);
                  isImageLoading := false; imagenStatus := imagenStatus s;
                  timeouts := timeouts s |}
      end
  | Ai.RejectedWith Ai.TypeError =>
      Some {| imageUrl := imageUrl s; errorMessage := Some type_error_message;
              isImageLoading := false; imagenStatus := imagenStatus s;
              timeouts := timeouts s |}
  | Ai.RejectedWith Ai.Unmodelled | Ai.OutOfModel => None
  | Ai.Pending => Some s
  end.

End Settle.

End App.

(** ** Device motion

    [AppComponent.updateStability] (app.component.ts) turns a reading of the
    motion sensor into the stability score and the two tilt angles of the
    camera overlay. *)

Module Motion.

(** [DeviceMotionEventAcceleration]: each component is a number or null. *)
Record Acceleration := {
  x : option float;
  y : option float;
  z : option float
}.

(** [v || 0] for a number or null: null, NaN and the zeros are falsy. *)
Definition or_zero (v : option float) : float :=
  match v with
  | None | Some S754_nan | Some (S754_zero _) => F64.zero
  | Some f => f
  end.

(** [Math.max] of two Numbers: NaN if either is, and +0 counts as larger
    than -0. *)
Definition Math_max (a b : float) : float :=
  if F64.is_nan a || F64.is_nan b then F64.nan
  else
    match SFcompare a b with
    | Some Lt => b
    | Some Gt => a
    | _ => match a, b with
           | S754_zero true, S754_zero false => b
           | _, _ => a
           end
    end.

(** [Math.round]: the integer nearest to the argument, the larger one at a
    tie; a result of zero has the sign of the argument. *)
Definition Math_round (f : float) : float :=
  match f with
  | S754_finite s m e =>
      if 0 <=? e then f
      else
        let n := (2 * cond_Zopp s (Zpos m) + 2 ^ (- e)) / 2 ^ (1 - e) in
        if n =? 0 then S754_zero s else F64.of_Z n
  | _ => f
  end.

(** The signals that [updateStability] writes. *)
Record Telemetry := {
  stabilityScore : float;
  gyroX : float;
  gyroY : float
}.

(** [acc] is [event.accelerationIncludingGravity], null when the device
    gives none. *)
Definition updateStability (acc : option Acceleration) (s : Telemetry) : Telemetry :=
  match acc with
  | None => s
  | Some a =>
      let totalMotion :=
        F64.add
          (F64.add (F64.abs (or_zero (x a))) (F64.abs (or_zero (y a))))
          (F64.abs (F64.sub (or_zero (z a)) (F64.of_decimal 98 1))) in
      {| stabilityScore :=
           Math_round
             (Math_max F64.zero
                (F64.sub (F64.of_Z 100) (F64.mul totalMotion (F64.of_Z 10))));
         gyroX := F64.mul (or_zero (x a)) (F64.of_Z 5);
         gyroY := F64.mul (or_zero (y a)) (F64.of_Z 5) |}
  end.

End Motion.

(** A Number that is not NaN and has the sign bit [s]. *)
Definition signed (s : bool) (f : float) : Prop :=
  match f with
  | S754_zero s' | S754_infinity s' | S754_finite s' _ _ => s' = s
  | S754_nan => False
  end.

(** A Number that is at most 100: a zero, a negative Number, or a positive
    one with a negative exponent whose mantissa says so. *)
Definition at_most_100 (f : float) : Prop :=
  match f with
  | S754_zero _ => True
  | S754_infinity s => s = true
  | S754_finite s m e => s = true \/ (e < 0 /\ Zpos m <= 100 * 2 ^ (- e))
  | S754_nan => False
  end.


(** ** Examples

    Values to run the properties on. *)

(** The component on [page] with [text] bound to [formula], before its view
    is initialised. *)
Definition bound (text : string) : World :=
  with_comp (set_formula text (comp (construct page))) (construct page).

Definition quote : string := String "034" "".

(** The JSON text of a rate-limit error of the client: an object with the
    name ApiError and the status 429. *)
Definition rate_limit_json : string :=
  ("{" ++ quote ++ "name" ++ quote ++ ":" ++ quote ++ "ApiError" ++ quote ++ ","
   ++ quote ++ "status" ++ quote ++ ":429}")%string.

Definition rate_limit : Ai.any :=
  Ai.Obj [("name", Ai.Str "ApiError"); ("status", Ai.Other true);
          ("message", Ai.Str "Resource has been exhausted")]%string.

(** An engine for which every object has the JSON text of the rate-limit
    error, and no other value has one. *)
Definition stringify_page (v : Ai.any) : Ai.stringified :=
  match v with
  | Ai.Obj _ => Ai.Text rate_limit_json
  | _ => Ai.NoText
  end.

Definition rate_limit_error : Ai.AiError :=
  {| Ai.message := "Resource has been exhausted"; Ai.type := Ai.QUOTA |}.

(** An operation that is done at once and carries an error and no video. *)
Definition failed_at_once : Ai.any :=
  Ai.Obj [("done", Ai.Other true);
          ("error", Ai.Obj [("message", Ai.Str "boom")])]%string.

(** The signals while an image request is under way. *)
Definition loading : App.Media :=
  {| App.imageUrl := None; App.errorMessage := None; App.isImageLoading := true;
     App.imagenStatus := App.Active; App.timeouts := [] |}.

Definition in_progress : Ai.any := Ai.Obj [("done", Ai.Other false)]%string.

Definition finished : Ai.any :=
  Ai.Obj [("done", Ai.Other true);
          ("response",
           Ai.Obj [("generatedVideos",
                    Ai.Obj [("0", Ai.Obj [("video",
                                           Ai.Obj [("uri", Ai.Str "https://v")])])])])]%string.


(** * Properties *)

(** ** The function body built by [compileFormula] *)

Section TemplateShape.

Import JS.

Lemma lex_from_app s1 : forall s2 st,
  lex_from st (s1 ++ s2) =
  match lex_run st s1 with
  | Some (st', out) => option_map (app out) (lex_from st' s2)
  | None => None
  end.
Proof.
  induction s1 as [ | c s1 IH]; intros s2 st.
  - change ("" ++ s2)%string with s2. cbn [lex_run].
    destruct (lex_from st s2); reflexivity.
  - change (String c s1 ++ s2)%string with (String c (s1 ++ s2)).
    cbn [lex_from lex_run].
    destruct (step st c) as [[st' out] |]; [| reflexivity].
    rewrite IH.
    destruct (lex_run st' s1) as [[st'' out'] |]; [| reflexivity].
    destruct (lex_from st'' s2); cbn; [| reflexivity].
    now rewrite app_assoc.
Qed.

Lemma lex_template f :
  lex (template f) =
  option_map (app prefix_tokens) (lex_from LStart (f ++ suffix_text)).
Proof.
  unfold template, lex.
  change ("try { return " ++ f ++ "; } catch(e) { return 0; }")%string
    with ("try { return " ++ (f ++ suffix_text))%string.
  rewrite lex_from_app.
  change (lex_run LStart "try { return ") with (Some (LStart, prefix_tokens)).
  reflexivity.
Qed.

Lemma lex_suffix_any st ts :
  lex_from st suffix_text = Some ts ->
  exists mid, ts = mid ++ suffix_tokens.
Proof.
  unfold suffix_text, suffix_tokens.
  destruct st as [ | acc | m z | m k | p | ].
  - cbv. intros [= <-]. now exists [].
  - cbv -[F64.zero]. intros [= <-]. now exists [TId acc].
  - cbv -[F64.of_decimal F64.zero]. intros [= <-].
    now exists [TNum (F64.of_decimal m 0)].
  - cbv -[F64.of_decimal F64.zero]. intros [= <-].
    now exists [TNum (F64.of_decimal m k)].
  - cbn [lex_from step].
    destruct (Ascii.eqb p "|"); [discriminate |].
    destruct (joins p ";"); [discriminate |].
    destruct (punct_token p) as [t |]; [| discriminate].
    cbv -[F64.zero]. intros [= <-]. now exists [t].
  - cbv -[F64.zero]. intros [= <-]. now exists [TOrOr].
Qed.

Lemma lex_suffix f : forall st ts,
  lex_from st (f ++ suffix_text) = Some ts ->
  exists mid, ts = mid ++ suffix_tokens.
Proof.
  induction f as [ | c f IH]; intros st ts.
  - apply lex_suffix_any.
  - change (String c f ++ suffix_text)%string
      with (String c (f ++ suffix_text)).
    cbn [lex_from].
    destruct (step st c) as [[st' out] |]; [| discriminate].
    destruct (lex_from st' (f ++ suffix_text)) as [ts' |] eqn:E; [| discriminate].
    cbn. intros [= <-].
    destruct (IH _ _ E) as [mid ->].
    exists (out ++ mid). now rewrite app_assoc.
Qed.

Lemma span_expr_spec ts : forall u r,
  span_expr ts = (u, r) -> ts = u ++ r /\ forallb expr_token u = true.
Proof.
  induction ts as [ | t ts IH]; intros u r; cbn.
  - intros [= <- <-]. now split.
  - destruct (expr_token t) eqn:Et.
    + destruct (span_expr ts) as [u' r'].
      intros [= <- <-]. destruct (IH _ _ eq_refl) as [-> Hu].
      split; [reflexivity |]. cbn. now rewrite Et.
    + intros [= <- <-]. now split.
Qed.

Lemma is_word_eq w t : is_word w t = true -> t = TId w.
Proof.
  destruct t; cbn; try discriminate.
  intros H. apply String.eqb_eq in H. now subst.
Qed.

Lemma p_return_spec ts s rest :
  p_return ts = Accept (s, rest) ->
  exists u,
    ts = TId "return" :: u ++ TSemi :: rest /\
    forallb expr_token u = true /\
    ((u = [] /\ s = SReturn None) \/
     (exists e, p_expression u = Some e /\ s = SReturn (Some e))).
Proof.
  unfold p_return.
  destruct ts as [ | kw r]; [discriminate |].
  destruct (is_word "return" kw) eqn:Ekw; [| discriminate].
  apply is_word_eq in Ekw. subst kw.
  destruct (starts_statement r); [discriminate |].
  destruct (span_expr r) as [u r'] eqn:Es.
  apply span_expr_spec in Es. destruct Es as [-> Hu].
  destruct u as [ | t u].
  - destruct r' as [ | [] r']; try discriminate.
    intros [= <- <-]. exists []. repeat split. now left.
  - destruct r' as [ | [] r']; try discriminate.
    destruct (p_expression (t :: u)) as [e |] eqn:Ee; [| discriminate].
    intros [= <- <-]. exists (t :: u). repeat split; [assumption |].
    right. now exists e.
Qed.

Lemma is_punct_eq k t :
  is_punct k t = true -> (2 <= kind k)%nat -> t = k.
Proof.
  unfold is_punct. intros H Hk. apply Nat.eqb_eq in H.
  destruct k; cbn in Hk; try lia; destruct t; cbn in H; congruence.
Qed.

Lemma p_catch_spec ts p r :
  p_catch ts = Some (p, r) ->
  ts = TRBrace :: TId "catch" :: TLParen :: TId p :: TRParen :: TLBrace :: r.
Proof.
  unfold p_catch.
  destruct ts as [ | t1 [ | t2 [ | t3 [ | t4 [ | t5 [ | t6 r0]]]]]];
    try discriminate; destruct t4; try discriminate.
  match goal with
  | |- context [if ?c then _ else _] => destruct c eqn:E; [| discriminate]
  end.
  intros [= <- <-].
  repeat (apply andb_prop in E; destruct E as [E ?]).
  repeat match goal with
         | H : is_punct _ _ = true |- _ => apply is_punct_eq in H; [subst | cbn; lia]
         | H : is_word _ _ = true |- _ => apply is_word_eq in H; subst
         end.
  reflexivity.
Qed.

Lemma p_close_spec ts : p_close ts = true -> ts = [TRBrace].
Proof.
  destruct ts as [ | t [ | ]]; cbn [p_close]; try discriminate.
  intros H. apply is_punct_eq in H; [now subst | cbn; lia].
Qed.

Lemma app_inj_2 {A} (l1 l2 : list A) a b c d :
  l1 ++ [a; b] = l2 ++ [c; d] -> l1 = l2 /\ a = c /\ b = d.
Proof.
  change [a; b] with ([a] ++ [b]). change [c; d] with ([c] ++ [d]).
  rewrite !app_assoc. intros H.
  apply app_inj_tail in H. destruct H as [H ->].
  apply app_inj_tail in H. destruct H as [-> ->]. auto.
Qed.

Lemma expr_tokens_no_lbrace u :
  forallb expr_token u = true -> no_lbrace u.
Proof.
  induction u as [ | t u IH]; cbn; [constructor |].
  intros H. apply andb_prop in H. destruct H as [Ht Hu].
  constructor; [| now apply IH].
  intros ->. discriminate.
Qed.

Lemma last_lbrace l1 : forall l2 s1 s2,
  l1 ++ TLBrace :: s1 = l2 ++ TLBrace :: s2 ->
  no_lbrace s1 -> no_lbrace s2 -> l1 = l2 /\ s1 = s2.
Proof.
  induction l1 as [ | a l1 IH]; intros [ | b l2] s1 s2; cbn; intros E H1 H2.
  - injection E as <-. now split.
  - injection E as <- ->. exfalso.
    unfold no_lbrace in H1. rewrite Forall_app in H1. destruct H1 as [_ H1].
    inversion H1; congruence.
  - injection E as -> <-. exfalso.
    unfold no_lbrace in H2. rewrite Forall_app in H2. destruct H2 as [_ H2].
    inversion H2; congruence.
  - injection E as -> E. destruct (IH _ _ _ E H1 H2) as [-> ->]. now split.
Qed.

Ltac refused :=
  lazymatch goal with
  | |- NotModelled = _ -> _ => let H := fresh in intros H; inversion H
  | |- SyntaxError = _ -> _ => let H := fresh in intros H; inversion H
  end.

(** Whatever the formula, a body that the constructor accepts is one
    [return] guarded by the handler [catch (e) { return 0; }]. *)
Lemma template_shape f fn :
  Function_ctor ["x"; "y"; "t"]%string (template f) = Accept fn ->
  exists oe,
    fn = {| params := ["x"; "y"; "t"]%string;
            body := STry (SReturn oe) "e" (SReturn (Some (ENum F64.zero))) |}.
Proof.
  unfold Function_ctor.
  change (forallb binder_ok ["x"; "y"; "t"]%string) with true. cbn iota.
  rewrite lex_template.
  destruct (lex_from LStart (f ++ suffix_text)) as [ts |] eqn:El;
    cbn [option_map]; [| refused].
  destruct (lex_suffix _ _ _ El) as [mid ->]. clear El.
  cbn [prefix_tokens app p_body].
  change (is_word "try" (TId "try") && is_punct TLBrace TLBrace)%bool with true.
  cbn iota.
  destruct (p_return (TId "return" :: mid ++ suffix_tokens))
    as [[block r1] | |] eqn:Eb; try refused.
  destruct (p_catch r1) as [[s r'] |] eqn:Ec; [| refused].
  destruct (p_return r') as [[handler r3] | |] eqn:Eh; try refused.
  destruct (p_close r3) eqn:E3; [| refused].
  apply p_catch_spec in Ec. subst r1.
  apply p_close_spec in E3. subst r3.
  intros [= <-].
  apply p_return_spec in Eb. destruct Eb as (u1 & E1 & _ & Hb).
  apply p_return_spec in Eh. destruct Eh as (u2 & -> & Hu2 & Hh).
  injection E1 as E1.
  assert (E : (mid ++ [TSemi; TRBrace; TId "catch"; TLParen; TId "e"; TRParen])
              ++ TLBrace :: [TId "return"; TNum F64.zero; TSemi; TRBrace]
              = (u1 ++ [TSemi; TRBrace; TId "catch"; TLParen; TId s; TRParen])
                ++ TLBrace :: (TId "return" :: u2 ++ [TSemi; TRBrace])).
  { rewrite <- !app_assoc. exact E1. }
  apply last_lbrace in E.
  - destruct E as [Ehead Etail].
    injection Etail as Etail.
    assert (u2 = [TNum F64.zero]) as ->.
    { change [TNum F64.zero; TSemi; TRBrace]
        with ([TNum F64.zero] ++ [TSemi; TRBrace]) in Etail.
      now apply app_inv_tail in Etail. }
    assert (s = "e"%string) as ->.
    { change [TSemi; TRBrace; TId "catch"; TLParen; TId "e"; TRParen]
        with ([TSemi; TRBrace; TId "catch"; TLParen] ++ [TId "e"; TRParen]) in Ehead.
      change [TSemi; TRBrace; TId "catch"; TLParen; TId s; TRParen]
        with ([TSemi; TRBrace; TId "catch"; TLParen] ++ [TId s; TRParen]) in Ehead.
      rewrite !app_assoc in Ehead.
      apply app_inj_2 in Ehead. destruct Ehead as (_ & He & _).
      congruence. }
    destruct Hh as [[Hnil _] | (e & He & ->)]; [discriminate |].
    injection He as <-.
    destruct Hb as [[_ ->] | (e & _ & ->)]; eauto.
  - repeat constructor; discriminate.
  - constructor; [discriminate |].
    unfold no_lbrace. rewrite Forall_app. split.
    + now apply expr_tokens_no_lbrace.
    + repeat constructor; discriminate.
Qed.

Lemma ident_start_facts c :
  is_ident_start c = true ->
  is_blank c = false /\ is_ident_part c = true /\
  (Ascii.eqb c "." || is_digit c)%bool = false.
Proof.
  intros H. split; [| split].
  - unfold is_blank.
    destruct (Ascii.eqb c " ") eqn:E1; [apply Ascii.eqb_eq in E1; now subst |].
    destruct (Ascii.eqb c "009") eqn:E2; [apply Ascii.eqb_eq in E2; now subst |].
    reflexivity.
  - unfold is_ident_part. now rewrite H.
  - destruct (Ascii.eqb c ".") eqn:E1; [apply Ascii.eqb_eq in E1; now subst |].
    cbn [orb]. unfold is_ident_start, is_digit, between in *.
    destruct (Ascii.eqb c "_") eqn:E2; [apply Ascii.eqb_eq in E2; now subst |].
    destruct (Ascii.eqb c "$") eqn:E3; [apply Ascii.eqb_eq in E3; now subst |].
    rewrite !orb_false_r in H.
    apply orb_prop in H.
    apply andb_false_iff.
    destruct H as [H | H]; apply andb_prop in H; destruct H as [H1 H2];
      apply Nat.leb_le in H1; apply Nat.leb_le in H2;
      right; apply Nat.leb_gt; lia.
Qed.

Lemma append_snoc acc c s : (snoc acc c ++ s = acc ++ String c s)%string.
Proof.
  unfold snoc. induction acc as [ | a acc IH]; [reflexivity |].
  change (String a acc ++ String c "")%string with (String a (acc ++ String c ""))%string.
  change (String a (acc ++ String c "") ++ s)%string
    with (String a ((acc ++ String c "") ++ s))%string.
  now rewrite IH.
Qed.

Lemma lex_run_ident_part s : forall acc,
  all_ident_part s = true ->
  lex_run (LIdent acc) s = Some (LIdent (acc ++ s), []).
Proof.
  induction s as [ | c s IH]; intros acc; cbn [all_ident_part lex_run step].
  - intros _. f_equal. f_equal. f_equal.
    induction acc as [ | a acc IHa]; [reflexivity |].
    change (String a acc ++ "")%string with (String a (acc ++ ""))%string.
    now rewrite <- IHa.
  - intros H. apply andb_prop in H. destruct H as [Hc Hs].
    rewrite Hc, (IH _ Hs), append_snoc. reflexivity.
Qed.

Lemma lex_run_identifier n :
  is_identifier n = true -> lex_run LStart n = Some (LIdent n, []).
Proof.
  destruct n as [ | c n]; [discriminate |]. cbn [is_identifier].
  intros H. apply andb_prop in H. destruct H as [Hc Hn].
  destruct (ident_start_facts c Hc) as (Hb & _ & _).
  cbn [lex_run step]. unfold step_start. rewrite Hb, Hc.
  now rewrite (lex_run_ident_part n _ Hn).
Qed.

Lemma lex_run_member n :
  is_identifier n = true -> lex_run (LPunct ".") n = Some (LIdent n, [TDot]).
Proof.
  destruct n as [ | c n]; [discriminate |]. cbn [is_identifier].
  intros H. apply andb_prop in H. destruct H as [Hc Hn].
  destruct (ident_start_facts c Hc) as (Hb & _ & Hj).
  cbn [lex_run step].
  change (Ascii.eqb "." "|") with false. cbn iota.
  change (joins "." c) with (Ascii.eqb c "." || is_digit c)%bool. rewrite Hj.
  change (punct_token ".") with (Some TDot). cbn iota.
  unfold step_start. rewrite Hb, Hc. cbn [emit].
  now rewrite (lex_run_ident_part n _ Hn).
Qed.

Lemma span_expr_app u : forall rest,
  forallb expr_token u = true ->
  span_expr (u ++ TSemi :: rest) = (u, TSemi :: rest).
Proof.
  induction u as [ | t u IH]; intros rest; cbn [forallb app span_expr].
  - reflexivity.
  - intros H. apply andb_prop in H. destruct H as [Ht Hu].
    rewrite Ht, (IH _ Hu). reflexivity.
Qed.

(** The body parser on the template's tokens around an expression. *)
Lemma p_body_expression t u e :
  starts_statement (t :: u) = false ->
  forallb expr_token (t :: u) = true ->
  p_expression (t :: u) = Some e ->
  p_body (prefix_tokens ++ (t :: u) ++ suffix_tokens)
  = Accept (STry (SReturn (Some e)) "e" (SReturn (Some (ENum F64.zero)))).
Proof.
  intros Hs Hu He.
  unfold prefix_tokens, suffix_tokens.
  cbn [app p_body].
  change (is_word "try" (TId "try") && is_punct TLBrace TLBrace)%bool with true.
  cbn iota. unfold p_return at 1.
  change (is_word "return" (TId "return")) with true. cbn iota.
  change (starts_statement (t :: u ++ _)) with (starts_statement (t :: u)).
  rewrite Hs.
  change (t :: u ++ ?r) with ((t :: u) ++ r).
  rewrite (span_expr_app (t :: u) _ Hu). rewrite He.
  reflexivity.
Qed.

Lemma binder_ok_facts n :
  binder_ok n = true ->
  ident_modelled n = true /\ String.eqb n "Math" = false /\
  mem n statement_keywords = false.
Proof.
  unfold binder_ok, ident_modelled. intros H.
  apply andb_prop in H. destruct H as [H1 H2].
  split; [exact H1 |]. split; [now apply negb_true_iff in H2 |].
  apply negb_true_iff in H1. apply orb_false_elim in H1. destruct H1 as [H1 _].
  apply orb_false_elim in H1. destruct H1 as [H1 _].
  apply orb_false_elim in H1. tauto.
Qed.

Lemma string_app_assoc a : forall b c, ((a ++ b) ++ c = a ++ (b ++ c))%string.
Proof.
  induction a as [ | x a IH]; intros b c; [reflexivity |].
  change (String x a ++ b)%string with (String x (a ++ b))%string.
  change (String x (a ++ b) ++ c)%string with (String x ((a ++ b) ++ c))%string.
  now rewrite IH.
Qed.

Lemma ctor_of_tokens text t u e :
  lex_from LStart (text ++ suffix_text) = Some ((t :: u) ++ suffix_tokens) ->
  starts_statement (t :: u) = false ->
  forallb expr_token (t :: u) = true ->
  p_expression (t :: u) = Some e ->
  Function_ctor ["x"; "y"; "t"]%string (template text) = Accept (guard (Some e)).
Proof.
  intros Hl Hs Hu He. unfold Function_ctor.
  change (forallb binder_ok ["x"; "y"; "t"]%string) with true. cbn iota.
  rewrite lex_template, Hl. cbn [option_map].
  now rewrite (p_body_expression t u e Hs Hu He).
Qed.

Lemma p_primary_ident f n r :
  binder_ok n = true -> p_primary (S f) (TId n :: r) = Some (EId n, r).
Proof.
  intros H. destruct (binder_ok_facts n H) as (Hi & Hm & _).
  cbn [p_primary]. now rewrite Hm, Hi.
Qed.

Lemma p_primary_member f n r :
  math_prop_modelled n = true ->
  p_primary (S f) (TId "Math" :: TDot :: TId n :: r) = Some (EMath n, r).
Proof.
  intros H. cbn [p_primary].
  change (String.eqb "Math" "Math") with true. cbn iota. now rewrite H.
Qed.

(** Where an operand stands alone: at the end, or before [=]. *)
Definition alone (r : list token) : Prop :=
  match r with
  | [] | TAssign :: _ => True
  | _ => False
  end.

Definition operand_start (ts : list token) : Prop :=
  match ts with
  | TId _ :: _ | TNum _ :: _ => True
  | _ => False
  end.

Lemma p_or_operand f ts e r :
  p_primary (S f) ts = Some (e, r) -> operand_start ts -> alone r ->
  p_or (S (S (S (S (S f))))) ts = Some (e, r).
Proof.
  intros Hp Hs Hr.
  cbn [p_or p_add p_mul].
  assert (Hu : p_unary (S (S f)) ts = Some (e, r)).
  { destruct ts as [ | [] ts]; try contradiction;
      cbn [p_unary]; rewrite Hp; cbn [p_calls];
      destruct r as [ | [] r]; try contradiction; reflexivity. }
  rewrite Hu. cbn [p_mul_rest p_add_rest p_or_rest].
  destruct r as [ | [] r]; try contradiction; reflexivity.
Qed.

Lemma p_assign_step f ts :
  p_assign (S f) ts =
  match p_or f ts with
  | Some (lhs, TAssign :: r) =>
      match lhs with
      | EId n =>
          if binder_ok n then
            match p_assign f r with
            | Some (rhs, r') => Some (EAssign n rhs, r')
            | None => None
            end
          else None
      | EMath p =>
          match p_assign f r with
          | Some (rhs, r') => Some (EAssignMath p rhs, r')
          | None => None
          end
      | _ => None
      end
  | other => other
  end.
Proof. reflexivity. Qed.

Lemma p_assign_operand f ts e :
  p_primary (S f) ts = Some (e, []) -> operand_start ts ->
  p_assign (S (S (S (S (S (S f)))))) ts = Some (e, []).
Proof.
  intros Hp Hs. rewrite p_assign_step.
  now rewrite (p_or_operand f ts e [] Hp Hs I).
Qed.

Lemma p_expression_ident n :
  binder_ok n = true -> p_expression [TId n] = Some (EId n).
Proof.
  intros H. unfold p_expression, parse_fuel.
  change (8 * S (length [TId n]))%nat with (S (S (S (S (S (S 10)))))).
  now rewrite (p_assign_operand 10 [TId n] (EId n) (p_primary_ident _ n [] H) I).
Qed.

Lemma p_expression_assign n :
  binder_ok n = true ->
  p_expression [TId n; TAssign; TNum JS.one] = Some (EAssign n (ENum JS.one)).
Proof.
  intros H. unfold p_expression, parse_fuel.
  change (8 * S (length [TId n; TAssign; TNum JS.one]))%nat
    with (S (S (S (S (S (S (S 25))))))).
  rewrite p_assign_step.
  rewrite (p_or_operand 26 _ (EId n) [TAssign; TNum JS.one]
             (p_primary_ident _ n _ H) I I).
  cbv beta iota. rewrite H.
  now rewrite (p_assign_operand 25 [TNum JS.one] (ENum JS.one) eq_refl I).
Qed.

Lemma p_expression_member n :
  math_prop_modelled n = true ->
  p_expression [TId "Math"; TDot; TId n] = Some (EMath n).
Proof.
  intros H. unfold p_expression, parse_fuel.
  change (8 * S (length [TId "Math"; TDot; TId n]))%nat
    with (S (S (S (S (S (S 26)))))).
  now rewrite (p_assign_operand 26 _ (EMath n) (p_primary_member _ n [] H) I).
Qed.

(** Any identifier name compiles, alone, as the target of an assignment and
    as a property of [Math]. *)
Lemma ctor_identifier n :
  is_identifier n = true -> binder_ok n = true ->
  Function_ctor ["x"; "y"; "t"]%string (template n) = Accept (guard (Some (EId n))).
Proof.
  intros Hn Hb. destruct (binder_ok_facts n Hb) as (_ & _ & Hk).
  apply (ctor_of_tokens n (TId n) []).
  - rewrite lex_from_app, (lex_run_identifier n Hn). reflexivity.
  - exact Hk.
  - reflexivity.
  - now apply p_expression_ident.
Qed.

Lemma ctor_assignment n :
  is_identifier n = true -> binder_ok n = true ->
  Function_ctor ["x"; "y"; "t"]%string (template (n ++ " = 1"))
  = Accept (guard (Some (EAssign n (ENum JS.one)))).
Proof.
  intros Hn Hb. destruct (binder_ok_facts n Hb) as (_ & _ & Hk).
  apply (ctor_of_tokens _ (TId n) [TAssign; TNum JS.one]).
  - rewrite string_app_assoc, lex_from_app, (lex_run_identifier n Hn). reflexivity.
  - exact Hk.
  - reflexivity.
  - now apply p_expression_assign.
Qed.

Lemma ctor_member n :
  is_identifier n = true -> math_prop_modelled n = true ->
  Function_ctor ["x"; "y"; "t"]%string (template ("Math." ++ n))
  = Accept (guard (Some (EMath n))).
Proof.
  intros Hn Hm.
  apply (ctor_of_tokens _ (TId "Math") [TDot; TId n]).
  - rewrite string_app_assoc, lex_from_app.
    change (lex_run LStart "Math.") with (Some (LPunct ".", [TId "Math"])).
    cbn iota. rewrite lex_from_app, (lex_run_member n Hn). reflexivity.
  - reflexivity.
  - reflexivity.
  - now apply p_expression_member.
Qed.

End TemplateShape.

(** ** Evaluation *)

Section EvalFacts.

Import JS.

Variable impl : MathImpl.

(** Induction over expressions, with the arguments of a call. *)
Lemma expr_rect' (P : expr -> Prop) :
  (forall n, P (ENum n)) ->
  (forall n, P (EId n)) ->
  (forall p, P (EMath p)) ->
  (forall f args, P f -> Forall P args -> P (ECall f args)) ->
  (forall e, P e -> P (ENeg e)) ->
  (forall e, P e -> P (EPos e)) ->
  (forall op a b, P a -> P b -> P (EBin op a b)) ->
  (forall a b, P a -> P b -> P (EOr a b)) ->
  (forall n e, P e -> P (EAssign n e)) ->
  (forall p e, P e -> P (EAssignMath p e)) ->
  forall e, P e.
Proof.
  intros Hn Hi Hm Hc Hng Hp Hb Ho Ha Ham.
  fix rec 1. intros [n | n | p | f args | e | e | op a b | a b | n e | p e].
  - apply Hn.
  - apply Hi.
  - apply Hm.
  - apply Hc; [apply rec |].
    induction args as [ | a args IH]; constructor; [apply rec | exact IH].
  - apply Hng, rec.
  - apply Hp, rec.
  - apply Hb; apply rec.
  - apply Ho; apply rec.
  - apply Ha, rec.
  - apply Ham, rec.
Qed.

Lemma eval_call f args st :
  eval impl (ECall f args) st =
  bind (eval impl f) (fun fv =>
    bind (eval_args impl args) (fun vs => call_value impl fv vs)) st.
Proof. reflexivity. Qed.

Lemma eval_args_cons a l st :
  eval_args impl (a :: l) st =
  bind (eval impl a) (fun v =>
    bind (eval_args impl l) (fun vs => ret (v :: vs))) st.
Proof. reflexivity. Qed.

(** An expression without assignment leaves the state as it was. *)
Lemma eval_pure e :
  pure_expr e = true -> forall st, snd (eval impl e st) = st.
Proof.
  induction e as [n | n | p | f args IHf IHargs | e IH | e IH
                  | op a b IHa IHb | a b IHa IHb | n e IH | p e IH]
    using expr_rect'; cbn [pure_expr]; intros Hp st; try discriminate.
  - reflexivity.
  - cbn. unfold get_ident.
    destruct (lookup_scope n (scope st)); [reflexivity |].
    destruct (String.eqb n "Math"); [reflexivity |].
    destruct (globals (realm st) !! n); reflexivity.
  - cbn. unfold get_math.
    destruct (math_constant p); [reflexivity |].
    destruct (math (realm st) !! p); reflexivity.
  - apply andb_prop in Hp. destruct Hp as [Hf Hargs].
    rewrite eval_call. unfold bind at 1.
    specialize (IHf Hf st). destruct (eval impl f st) as [[fv |] st1]; cbn in IHf; subst st1;
      [| reflexivity].
    assert (Hl : snd (eval_args impl args st) = st).
    { clear fv Hf. revert st. induction IHargs as [ | a l Ha _ IHl]; intros st.
      - reflexivity.
      - cbn [forallb] in Hargs. apply andb_prop in Hargs. destruct Hargs as [Hpa Hpl].
        rewrite eval_args_cons. unfold bind at 1.
        specialize (Ha Hpa st).
        destruct (eval impl a st) as [[v |] st1]; cbn in Ha; subst st1; [| reflexivity].
        unfold bind. specialize (IHl Hpl st).
        destruct (eval_args impl l st) as [[vs |] st1]; cbn in IHl; subst st1;
          reflexivity. }
    unfold bind. destruct (eval_args impl args st) as [[vs |] st1]; cbn in Hl; subst st1;
      [| reflexivity].
    destruct fv; reflexivity.
  - cbn. unfold bind. specialize (IH Hp st).
    destruct (eval impl e st) as [[v |] st1]; cbn in IH; subst st1; reflexivity.
  - cbn. unfold bind. specialize (IH Hp st).
    destruct (eval impl e st) as [[v |] st1]; cbn in IH; subst st1; reflexivity.
  - apply andb_prop in Hp. destruct Hp as [Ha Hb].
    cbn. unfold bind. specialize (IHa Ha st).
    destruct (eval impl a st) as [[l |] st1]; cbn in IHa; subst st1; [| reflexivity].
    specialize (IHb Hb st).
    destruct (eval impl b st) as [[r |] st1]; cbn in IHb; subst st1; reflexivity.
  - apply andb_prop in Hp. destruct Hp as [Ha Hb].
    cbn. unfold bind. specialize (IHa Ha st).
    destruct (eval impl a st) as [[l |] st1]; cbn in IHa; subst st1; [| reflexivity].
    destruct (ToBoolean l); [reflexivity |]. now apply IHb.
Qed.

Lemma exec_pure s :
  pure_stmt s = true -> forall st, realm (snd (exec impl s st)) = realm st.
Proof.
  induction s as [[e |] | block IHb p handler IHh]; cbn [pure_stmt]; intros Hp st.
  - cbn. now rewrite eval_pure.
  - reflexivity.
  - apply andb_prop in Hp. destruct Hp as [Hb Hh].
    cbn. specialize (IHb Hb st).
    destruct (exec impl block st) as [[v |] st1]; cbn in IHb; [exact IHb |].
    rewrite IHh by assumption. exact IHb.
Qed.

(** A call of a function without assignment leaves the realm as it was. *)
Lemma call_pure f args r :
  pure f = true -> snd (call impl f args r) = r.
Proof.
  unfold pure, call. intros Hp.
  pose proof (exec_pure (body f) Hp {| scope := bind_params (params f) args; realm := r |}) as H.
  destruct (exec impl (body f) _) as [c st]. exact H.
Qed.

(** The [try]/[catch] of the template: the function returns what the
    formula evaluates to, and 0 when the evaluation throws. *)
Lemma call_guard oe args r :
  call impl (guard oe) args r =
  match exec impl (SReturn oe)
          {| scope := bind_params ["x"; "y"; "t"]%string args; realm := r |} with
  | (Normal v, st) => (Normal v, realm st)
  | (Abrupt, st) => (Normal (VNum F64.zero), realm st)
  end.
Proof.
  unfold call, guard. cbn [body params].
  destruct oe as [e |]; cbn; [| reflexivity].
  destruct (eval impl e _) as [[v |] st]; reflexivity.
Qed.

Lemma call_guard_returns oe args r :
  exists v r', call impl (guard oe) args r = (Normal v, r').
Proof.
  rewrite call_guard.
  match goal with
  | |- context [exec impl ?s ?st] => destruct (exec impl s st) as [[v |] st']
  end; eauto.
Qed.

End EvalFacts.

(** ** Rounding *)

Section RoundingFacts.

Variables prec emax : Z.

Lemma shr_1_nonneg mrs : 0 <= shr_m mrs -> 0 <= shr_m (shr_1 mrs).
Proof.
  destruct mrs as [m r s]. cbn [shr_m].
  destruct m as [ | [p | p | ] | p]; cbn; lia.
Qed.

Lemma iter_shr_1_nonneg p : forall mrs,
  0 <= shr_m mrs -> 0 <= shr_m (SpecFloat.iter_pos shr_1 p mrs).
Proof.
  induction p as [p IH | p IH | ]; intros mrs H; cbn [SpecFloat.iter_pos].
  - apply IH, IH, shr_1_nonneg, H.
  - apply IH, IH, H.
  - apply shr_1_nonneg, H.
Qed.

Lemma shr_fexp_nonneg m e l :
  0 <= m -> 0 <= shr_m (fst (shr_fexp prec emax m e l)).
Proof.
  intros Hm. unfold shr_fexp, shr.
  assert (H0 : 0 <= shr_m (shr_record_of_loc m l)).
  { destruct l as [ | []]; exact Hm. }
  destruct (fexp prec emax (Zdigits2 m + e) - e); cbn [fst]; try exact H0.
  now apply iter_shr_1_nonneg.
Qed.

Lemma round_nearest_even_nonneg m l :
  0 <= m -> 0 <= round_nearest_even m l.
Proof.
  intros Hm. destruct l as [ | []]; cbn; try lia.
  destruct (Z.even m); lia.
Qed.

Lemma binary_round_aux_not_nan s m e l :
  0 <= m -> binary_round_aux prec emax s m e l <> S754_nan.
Proof.
  intros Hm. unfold binary_round_aux.
  pose proof (shr_fexp_nonneg m e l Hm) as H1.
  destruct (shr_fexp prec emax m e l) as [mrs' e']. cbn [fst] in H1.
  pose proof (shr_fexp_nonneg _ e' loc_Exact
                (round_nearest_even_nonneg _ (loc_of_shr_record mrs') H1)) as H2.
  destruct (shr_fexp prec emax _ e' loc_Exact) as [mrs'' e'']. cbn [fst] in H2.
  destruct (shr_m mrs''); try discriminate; [| lia].
  destruct (e'' <=? emax - prec); discriminate.
Qed.

Lemma binary_round_not_nan s m e :
  binary_round prec emax s m e <> S754_nan.
Proof.
  unfold binary_round.
  destruct (shl_align m e _) as [mz ez].
  apply binary_round_aux_not_nan. lia.
Qed.

End RoundingFacts.

Lemma fround_nan f : F64.is_nan (F64.fround f) = F64.is_nan f.
Proof.
  destruct f as [s | s | | s m e]; try reflexivity.
  cbn [F64.fround F64.is_nan].
  pose proof (binary_round_not_nan 24 128 s m e) as H1.
  destruct (binary_round 24 128 s m e) as [ | | | s' m' e']; try reflexivity;
    [congruence |].
  pose proof (binary_round_not_nan F64.prec F64.emax s' m' e') as H2.
  destruct (binary_round F64.prec F64.emax s' m' e'); try reflexivity. congruence.
Qed.

(** ** The height update *)

Section UpdateFacts.

Variable impl : JS.MathImpl.

Lemma stored_height_not_nan y : F64.is_nan (stored_height y) = false.
Proof.
  unfold stored_height. rewrite fround_nan.
  destruct (JS.isNaN y) eqn:E; [reflexivity | exact E].
Qed.

(** With the template's guard the loop never throws; it keeps the sample
    coordinates and writes no NaN. *)
Lemma updateVertices_guard oe t vs : forall r,
  exists vs' r',
    updateVertices impl (guard oe) t vs r = (JS.Normal tt, vs', r') /\
    map xz vs' = map xz vs /\
    Forall (fun v => F64.is_nan (vy v) = false) vs'.
Proof.
  induction vs as [ | v vs IH]; intros r.
  - exists [], r. repeat split. constructor.
  - cbn [updateVertices].
    destruct (call_guard_returns impl oe
                [JS.VNum (vx v); JS.VNum (vz v); JS.VNum t] r) as (y & r1 & ->).
    destruct (IH r1) as (vs' & r' & -> & Hxz & Hn).
    exists (set_vy (stored_height y) v :: vs'), r'. repeat split.
    + cbn. now rewrite Hxz.
    + constructor; [apply stored_height_not_nan | exact Hn].
Qed.

(** When the calls leave the realm alone, every vertex gets the stored
    form of the evaluator's result at its own sample. *)
Lemma updateVertices_pure f t r vs :
  (forall x z, exists y,
      JS.call impl f [JS.VNum x; JS.VNum z; JS.VNum t] r = (JS.Normal y, r)) ->
  exists vs',
    updateVertices impl f t vs r = (JS.Normal tt, vs', r) /\
    Forall2 (written impl f t r) vs vs'.
Proof.
  intros Hcall. induction vs as [ | v vs (vs' & IH & Hall)].
  - exists []. split; [reflexivity | constructor].
  - cbn [updateVertices].
    destruct (Hcall (vx v) (vz v)) as [y Hy]. rewrite Hy, IH.
    exists (set_vy (stored_height y) v :: vs'). split; [reflexivity |].
    constructor; [| exact Hall].
    exists y. split; [| reflexivity]. unfold output. now rewrite Hy.
Qed.

Lemma call_guard_pure oe args r :
  JS.pure (guard oe) = true ->
  exists y, JS.call impl (guard oe) args r = (JS.Normal y, r).
Proof.
  intros Hp.
  pose proof (call_pure impl (guard oe) args r Hp) as Hr.
  destruct (call_guard_returns impl oe args r) as (y & r' & E).
  rewrite E in Hr. cbn in Hr. subst r'. now exists y.
Qed.

End UpdateFacts.

(** ** Invariants of the life cycle *)

Section Lifecycle.

Variable impl : JS.MathImpl.
Variable planeGeometry : list Vertex.


Lemma compileFormula_cases w :
  compileFormula w = OutOfModel \/
  compileFormula w = Ok (with_comp (set_compiledFunc None (comp w)) w) \/
  exists oe,
    compileFormula w = Ok (with_comp (set_compiledFunc (Some (guard oe)) (comp w)) w).
Proof.
  unfold compileFormula.
  destruct (JS.Function_ctor _ _) as [f | |] eqn:E; auto.
  apply template_shape in E. destruct E as [oe ->]. right. right. now exists oe.
Qed.

Lemma updateGraph_idle t w :
  wireframeMesh (comp w) = None \/ compiledFunc (comp w) = None ->
  updateGraph impl t w = Ok w.
Proof.
  unfold updateGraph. intros [-> | H]; [reflexivity |].
  rewrite H. now destruct (wireframeMesh (comp w)).
Qed.

Lemma updateGraph_guard t w wm sm oe :
  wireframeMesh (comp w) = Some wm ->
  solidMesh (comp w) = Some sm ->
  compiledFunc (comp w) = Some (guard oe) ->
  exists vw vs r1 r2,
    updateVertices impl (guard oe) t (position (geometry wm)) (realm (env w))
      = (JS.Normal tt, vw, r1) /\
    updateVertices impl (guard oe) t (position (geometry sm)) r1
      = (JS.Normal tt, vs, r2) /\
    updateGraph impl t w =
      Ok {| comp := set_meshes
                      (Some (set_geometry {| position := vw; needsUpdate := true |} wm))
                      (Some (set_geometry {| position := vs; needsUpdate := true |} sm))
                      (comp w);
            env := set_realm r2 (env w) |} /\
    map xz vw = map xz (position (geometry wm)) /\
    map xz vs = map xz (position (geometry sm)) /\
    no_nan vw /\ no_nan vs.
Proof.
  intros Hw Hs Hf. unfold updateGraph, updateGeometry. rewrite Hw, Hs, Hf.
  destruct (updateVertices_guard impl oe t (position (geometry wm)) (realm (env w)))
    as (vw & r1 & E1 & X1 & N1).
  destruct (updateVertices_guard impl oe t (position (geometry sm)) r1)
    as (vs & r2 & E2 & X2 & N2).
  rewrite E1, E2. exists vw, vs, r1, r2. repeat split; assumption.
Qed.

Lemma surface_step_refl w : surface_step w w.
Proof.
  exists (wireframeMesh (comp w)), (solidMesh (comp w)), (realm (env w)).
  split; [| tauto]. now destruct w as [[] []].
Qed.

Lemma updateGraph_inv t w :
  guarded w -> paired w ->
  exists w', updateGraph impl t w = Ok w' /\ surface_step w w' /\ paired w'.
Proof.
  unfold guarded, paired. intros Hg Hp.
  destruct (wireframeMesh (comp w)) as [wm |] eqn:Hw.
  2: { exists w. rewrite updateGraph_idle by auto.
       repeat split; [apply surface_step_refl |]. unfold paired. now rewrite Hw. }
  destruct (solidMesh (comp w)) as [sm |] eqn:Hs; [| contradiction].
  destruct (compiledFunc (comp w)) as [f |] eqn:Hf.
  2: { exists w. rewrite updateGraph_idle by auto.
       repeat split; [apply surface_step_refl |]. unfold paired. now rewrite Hw, Hs. }
  destruct Hg as [oe ->].
  destruct (updateGraph_guard t w wm sm oe Hw Hs Hf)
    as (vw & vs & r1 & r2 & _ & _ & -> & X1 & X2 & _).
  eexists. split; [reflexivity |]. split.
  - eexists _, _, _. split; [reflexivity |]. rewrite Hw. split; discriminate.
  - unfold paired, samples. cbn.
    change (map (fun v => (vx v, vz v)) vw) with (map xz vw).
    change (map (fun v => (vx v, vz v)) vs) with (map xz vs).
    rewrite X1, X2. exact Hp.
Qed.

Lemma on_rig_some f w :
  three (comp w) <> None ->
  exists r, three (comp w) = Some r /\
            on_rig f w = Ok (with_comp (set_three (Some (f r)) (comp w)) w).
Proof.
  unfold on_rig. destruct (three (comp w)) as [r |]; [| congruence].
  intros _. now exists r.
Qed.

(** One step of the loop, from a state with no request pending. *)
Lemma animate_inv w :
  guarded w -> paired w -> three (comp w) <> None ->
  wireframeMesh (comp w) <> None -> (0 < nextHandle (env w))%nat ->
  frameRequests (env w) = [] ->
  exists w', animate impl w = Ok w' /\ Inv Live w' /\
             resizeListener (env w') = resizeListener (env w) /\
             startTime (comp w') = startTime (comp w).
Proof.
  intros Hg Hp H3 Hm Hn Hq. unfold animate.
  destruct (on_rig_some tick_controls (requestAnimationFrame w)) as (r & Hr & ->);
    [exact H3 |].
  cbn [and_then].
  set (w1 := with_comp _ _).
  assert (Hg1 : guarded w1) by exact Hg.
  assert (Hp1 : paired w1) by exact Hp.
  assert (Hs : exists w2, (if isAnimated (comp w1) then updateGraph impl (elapsed w1) w1 else Ok w1)
                          = Ok w2 /\ surface_step w1 w2 /\ paired w2).
  { destruct (isAnimated (comp w1)).
    - now apply updateGraph_inv.
    - exists w1. repeat split; [apply surface_step_refl | exact Hp1]. }
  destruct Hs as (w2 & -> & (wm & sm & r' & -> & Hwm) & Hp2). cbn [and_then].
  unfold on_rig. cbn.
  eexists. split; [reflexivity |].
  unfold Inv, guarded, paired, scheduled in *. cbn in *. rewrite Hq. cbn.
  repeat split; try assumption; try discriminate.
  - lia.
  - intros ->. apply Hm. now apply Hwm.
  - exists (nextHandle (env w)). repeat split; lia.
Qed.

Lemma quiet_refl w : quiet w w.
Proof. unfold quiet. tauto. Qed.

Lemma quiet_trans w1 w2 w3 : quiet w1 w2 -> quiet w2 w3 -> quiet w1 w3.
Proof.
  unfold quiet. intros (A1 & A2 & A3 & A4 & A5 & A6 & A7) (B1 & B2 & B3 & B4 & B5 & B6 & B7).
  repeat split; try congruence; tauto.
Qed.

Lemma surface_step_quiet w w' : surface_step w w' -> quiet w w'.
Proof.
  intros (wm & sm & r & -> & H). unfold quiet. cbn. tauto.
Qed.

Lemma Inv_quiet ph w w' :
  Inv ph w -> guarded w' -> paired w' -> quiet w w' -> Inv ph w'.
Proof.
  unfold Inv, scheduled, quiet.
  intros (_ & _ & Hn & Hph) Hg Hp (Q1 & Q2 & Q3 & Q4 & Q5 & Q6 & Q7).
  repeat split; try assumption; [lia |].
  destruct ph.
  - destruct Hph as (A & B & C & D & E). repeat split; try congruence; tauto.
  - destruct Hph as (A & B & h & C & D & E). repeat split; try tauto.
    exists h. repeat split; try congruence; lia.
  - destruct Hph as (A & B). split; congruence.
Qed.

Lemma updateMaterials_inv w :
  guarded w -> paired w ->
  exists w', updateMaterials w = Ok w' /\ guarded w' /\ paired w' /\ quiet w w'.
Proof.
  unfold updateMaterials. intros Hg Hp.
  destruct (wireframeMesh (comp w)) as [wm |] eqn:Hw.
  - destruct (solidMesh (comp w)) as [sm |] eqn:Hs.
    2: { unfold paired in Hp. now rewrite Hw, Hs in Hp. }
    eexists. split; [reflexivity |]. split; [exact Hg |]. split.
    + unfold paired in *. rewrite Hw, Hs in Hp. exact Hp.
    + unfold quiet. cbn. rewrite Hw. repeat split; try tauto; discriminate.
  - exists w. split; [reflexivity |]. split; [exact Hg |].
    split; [exact Hp | apply quiet_refl].
Qed.

Lemma ngOnChanges_fresh ch w :
  three (comp w) = None -> ngOnChanges impl ch w = Ok w.
Proof. unfold ngOnChanges. now intros ->. Qed.

Lemma ngOnChanges_inv ch w w' :
  guarded w -> paired w ->
  settle (ngOnChanges impl ch w) = Some w' ->
  guarded w' /\ paired w' /\ quiet w w'.
Proof.
  intros Hg Hp. unfold ngOnChanges.
  destruct (three (comp w)) as [rig |] eqn:H3.
  2: { intros [= <-]. split; [exact Hg |]. split; [exact Hp | apply quiet_refl]. }
  assert (H1 : forall r,
    r = (if ch_formula ch then
           compileFormula w >>= fun w1 =>
           if isAnimated (comp w1) then Ok w1 else updateGraph impl F64.zero w1
         else Ok w) ->
    r = OutOfModel \/
    exists w2, r = Ok w2 /\ guarded w2 /\ paired w2 /\ quiet w w2).
  { intros r ->. destruct (ch_formula ch).
    2: { right. exists w. split; [reflexivity |]. split; [exact Hg |].
         split; [exact Hp | apply quiet_refl]. }
    destruct (compileFormula_cases w) as [-> | [-> | [oe ->]]]; [now left | |];
      right; cbn [and_then];
      match goal with
      | |- context [isAnimated (comp ?w1)] =>
          assert (Hg1 : guarded w1) by (unfold guarded; cbn; eauto);
          assert (Hp1 : paired w1) by exact Hp;
          assert (Hq1 : quiet w w1) by (unfold quiet; cbn; tauto);
          destruct (isAnimated (comp w1));
          [ exists w1; split; [reflexivity |]; split; [exact Hg1 |];
            split; [exact Hp1 | exact Hq1]
          | destruct (updateGraph_inv F64.zero w1 Hg1 Hp1) as (w2 & -> & Hs & Hp2);
            exists w2; split; [reflexivity |]; split;
            [ destruct Hs as (? & ? & ? & -> & _); exact Hg1 |];
            split; [exact Hp2 |];
            apply surface_step_quiet in Hs; revert Hq1 Hs; apply quiet_trans ]
      end. }
  destruct (H1 _ eq_refl) as [-> | (w2 & -> & Hg2 & Hp2 & Hq2)]; [discriminate |].
  cbn [and_then]. destruct (ch_color ch).
  - destruct (updateMaterials_inv w2 Hg2 Hp2) as (w3 & -> & Hg3 & Hp3 & Hq3).
    intros [= <-]. split; [exact Hg3 |]. split; [exact Hp3 |].
    revert Hq2 Hq3. apply quiet_trans.
  - intros [= <-]. split; [exact Hg2 |]. split; [exact Hp2 | exact Hq2].
Qed.

Lemma input_inv ph ch c w w' :
  Inv ph w ->
  compiledFunc c = compiledFunc (comp w) ->
  wireframeMesh c = wireframeMesh (comp w) ->
  solidMesh c = solidMesh (comp w) ->
  three c = three (comp w) ->
  animationFrameId c = animationFrameId (comp w) ->
  startTime c = startTime (comp w) ->
  settle (ngOnChanges impl ch (with_comp c w)) = Some w' ->
  Inv ph w' /\ startTime (comp w') = startTime (comp w).
Proof.
  intros HI E1 E2 E3 E4 E5 E6 H.
  assert (Hq : quiet w (with_comp c w)).
  { unfold quiet. cbn. rewrite E2, E4, E5, E6. tauto. }
  assert (Hg : guarded (with_comp c w)).
  { destruct HI as (Hg & _). unfold guarded in *. cbn. now rewrite E1. }
  assert (Hp : paired (with_comp c w)).
  { destruct HI as (_ & Hp & _). unfold paired in *. cbn. now rewrite E2, E3. }
  destruct (ngOnChanges_inv _ _ _ Hg Hp H) as (Hg' & Hp' & Hq').
  pose proof (quiet_trans _ _ _ Hq Hq') as Hqq.
  split; [now apply (Inv_quiet ph w) | apply Hqq].
Qed.

Lemma on_rig_quiet f w w' :
  settle (on_rig f w) = Some w' ->
  guarded w -> paired w -> guarded w' /\ paired w' /\ quiet w w'.
Proof.
  unfold on_rig. destruct (three (comp w)) as [r |] eqn:H3; intros [= <-] Hg Hp.
  - split; [exact Hg |]. split; [exact Hp |]. unfold quiet. cbn. rewrite H3.
    repeat split; try tauto; discriminate.
  - split; [exact Hg |]. split; [exact Hp | apply quiet_refl].
Qed.

Lemma windowResize_inv ph cw ch w w' :
  Inv ph w -> windowResize cw ch w = Some w' ->
  Inv ph w' /\ startTime (comp w') = startTime (comp w).
Proof.
  intros HI. unfold windowResize.
  set (w1 := with_env _ w).
  assert (Hq1 : quiet w w1) by (unfold quiet; cbn; tauto).
  destruct HI as (Hg & Hp & HI').
  destruct (resizeListener (env w1)).
  - intros H. apply on_rig_quiet in H; [| exact Hg | exact Hp].
    destruct H as (Hg' & Hp' & Hq').
    pose proof (quiet_trans _ _ _ Hq1 Hq') as Hqq.
    split; [apply (Inv_quiet ph w); unfold Inv; auto | apply Hqq].
  - intros [= <-]. split; [| reflexivity].
    apply (Inv_quiet ph w); unfold Inv; auto.
Qed.

Lemma clock_inv ph dt w : Inv ph w -> Inv ph (clock dt w).
Proof.
  intros HI. apply (Inv_quiet ph w); try exact HI; try apply HI.
  unfold quiet. cbn. tauto.
Qed.

Lemma animationFrame_idle w :
  frameRequests (env w) = [] -> animationFrame impl w = Some w.
Proof. unfold animationFrame. now intros ->. Qed.

Lemma animationFrame_live w w' :
  Inv Live w -> animationFrame impl w = Some w' ->
  Inv Live w' /\ startTime (comp w') = startTime (comp w).
Proof.
  intros (Hg & Hp & Hn & H3 & Hm & h & Hq & Hid & Hh).
  unfold animationFrame. rewrite Hq. cbn [run_callbacks existsb].
  rewrite Hq. cbn [existsb]. rewrite Nat.eqb_refl. cbn [orb].
  set (w0 := with_env _ w).
  destruct (animate_inv w0) as (w1 & -> & HI & _ & Hst); try assumption.
  - unfold w0, cancelAnimationFrame. cbn. rewrite Hq. cbn.
    now rewrite Nat.eqb_refl.
  - cbn. intros [= <-]. split; [exact HI | exact Hst].
Qed.

Lemma handle_fresh e w w' :
  Inv Fresh w -> e <> Snapshot -> handle impl e w = Some w' ->
  Inv Fresh w' /\ startTime (comp w') = startTime (comp w).
Proof.
  intros HI He. destruct e; cbn [handle].
  - now apply input_inv.
  - now apply input_inv.
  - now apply input_inv.
  - now apply input_inv.
  - congruence.
  - rewrite animationFrame_idle by apply HI. intros [= <-]. now split.
  - now apply windowResize_inv.
  - intros [= <-]. split; [now apply clock_inv | reflexivity].
Qed.

Lemma handle_live e w w' :
  Inv Live w -> handle impl e w = Some w' ->
  Inv Live w' /\ startTime (comp w') = startTime (comp w).
Proof.
  intros HI. destruct e; cbn [handle].
  - now apply input_inv.
  - now apply input_inv.
  - now apply input_inv.
  - now apply input_inv.
  - intros H. apply on_rig_quiet in H; try apply HI.
    destruct H as (Hg & Hp & Hq). split; [now apply (Inv_quiet Live w) | apply Hq].
  - now apply animationFrame_live.
  - now apply windowResize_inv.
  - intros [= <-]. split; [now apply clock_inv | reflexivity].
Qed.

(** After [ngOnDestroy] the browser's events find nothing to call. *)
Lemma handle_destroyed e w :
  Inv Destroyed w -> browser_event e = true ->
  exists w', handle impl e w = Some w' /\ Inv Destroyed w' /\
             comp w' = comp w /\ realm (env w') = realm (env w).
Proof.
  intros HI He. pose proof HI as (Hg & Hp & Hn & Hq & Hl).
  destruct e; try discriminate; cbn [handle].
  - exists w. rewrite animationFrame_idle by exact Hq. now repeat split.
  - unfold windowResize. cbn. rewrite Hl. eexists. split; [reflexivity |].
    split; [| now split].
    apply (Inv_quiet Destroyed w); try assumption. unfold quiet. cbn. tauto.
  - eexists. split; [reflexivity |]. split; [now apply clock_inv | now split].
Qed.

Lemma ngAfterViewInit_inv w w' :
  Inv Fresh w -> settle (ngAfterViewInit impl planeGeometry w) = Some w' ->
  Inv Live w' /\ startTime (comp w') = startTime (comp w).
Proof.
  intros (Hg & Hp & Hn & H3 & Hm & Hq & Hl & Hid).
  unfold ngAfterViewInit, initThree. cbn [and_then].
  set (w1 := with_comp _ w).
  destruct (compileFormula_cases w1) as [-> | H]; [discriminate |].
  assert (exists cf, compileFormula w1 = Ok (with_comp (set_compiledFunc cf (comp w1)) w1)
                     /\ match cf with Some f => exists oe, f = guard oe | None => True end)
    as (cf & -> & Hcf).
  { destruct H as [-> | [oe ->]]; eexists; split; try reflexivity; cbn; eauto. }
  cbn [and_then]. unfold createGraphMeshes.
  set (w2 := with_comp (set_compiledFunc cf (comp w1)) w1).
  cbn [three comp w2 with_comp set_compiledFunc w1 set_three].
  set (w3 := with_comp _ _).
  assert (Hg3 : guarded w3) by exact Hcf.
  assert (Hp3 : paired w3) by reflexivity.
  destruct (updateGraph_inv F64.zero w3 Hg3 Hp3) as (w4 & -> & Hs & Hp4).
  cbn [and_then].
  assert (Hg4 : guarded w4) by (destruct Hs as (? & ? & ? & -> & _); exact Hg3).
  pose proof (surface_step_quiet _ _ Hs) as (Q1 & Q2 & Q3 & Q4 & Q5 & Q6 & Q7).
  destruct (animate_inv w4) as (w5 & -> & HI & Hl5 & Hst); try assumption.
  - intros E. apply Q6 in E. discriminate.
  - intros E. apply Q7 in E. discriminate.
  - rewrite Q4. exact Hn.
  - rewrite Q3. exact Hq.
  - cbn. intros [= <-]. split.
    + destruct HI as (A & B & C & D). unfold Inv. auto.
    + cbn. rewrite Hst, Q1. reflexivity.
Qed.

Lemma ngOnDestroy_inv w w' :
  Inv Live w -> settle (ngOnDestroy w) = Some w' ->
  Inv Destroyed w' /\ comp w' = comp w /\ frameRequests (env w) <> [].
Proof.
  intros (Hg & Hp & Hn & H3 & Hm & h & Hq & Hid & Hh).
  unfold ngOnDestroy. rewrite Hid.
  destruct h as [ | h]; [lia |].
  cbn. intros [= <-]. split; [| split; [reflexivity | now rewrite Hq]].
  unfold Inv. cbn. rewrite Hq. cbn. rewrite Nat.eqb_refl. cbn.
  repeat split; assumption.
Qed.

Lemma ngOnDestroy_fresh w w' :
  Inv Fresh w -> settle (ngOnDestroy w) = Some w' -> Inv Destroyed w'.
Proof.
  intros (Hg & Hp & Hn & H3 & Hm & Hq & Hl & Hid).
  unfold ngOnDestroy. rewrite Hid. cbn. intros [= <-].
  unfold Inv. cbn. repeat split; assumption.
Qed.

Theorem reachable_inv ph w : reachable impl planeGeometry ph w -> Inv ph w.
Proof.
  induction 1 as [b (Hq & Hl & Hn) | w e w' _ IH He H | w w' _ IH H
                  | w e w' _ IH H | w w' _ IH H | w w' _ IH H
                  | w e w' _ IH He H].
  - unfold Inv, guarded, paired. cbn. repeat split; assumption.
  - now apply (handle_fresh e w w').
  - now apply (ngAfterViewInit_inv w w').
  - now apply (handle_live e w w').
  - now apply (ngOnDestroy_inv w w').
  - now apply (ngOnDestroy_fresh w w').
  - destruct (handle_destroyed e w IH He) as (w'' & E & HI & _).
    rewrite E in H. now injection H as <-.
Qed.

End Lifecycle.

(** * The claims *)

Section Claims.

Variable impl : JS.MathImpl.
Variable planeGeometry : list Vertex.

(** C7.  [onWindowResize] sets the camera's aspect ratio to the container's
    width over its height, recomputes the projection from it, and sets the
    renderer's size.  The vertical field of view, the two meshes (sample
    coordinates and heights), the evaluator and everything else stay as
    they were. *)
Theorem C7_resize_touches_aspect_and_size_only w rig :
  three (comp w) = Some rig ->
  exists rig',
    onWindowResize w = Ok (with_comp (set_three (Some rig') (comp w)) w) /\
    fov (camera rig') = fov (camera rig) /\
    near (camera rig') = near (camera rig) /\
    far (camera rig') = far (camera rig) /\
    aspect (camera rig') =
      F64.div (F64.of_Z (clientWidth (env w))) (F64.of_Z (clientHeight (env w))) /\
    p_fov (projectionMatrix (camera rig')) = fov (camera rig) /\
    width (renderer rig') = clientWidth (env w) /\
    height (renderer rig') = clientHeight (env w) /\
    frames (renderer rig') = frames (renderer rig) /\
    scene rig' = scene rig /\ controls rig' = controls rig /\
    wireframeMesh (set_three (Some rig') (comp w)) = wireframeMesh (comp w) /\
    solidMesh (set_three (Some rig') (comp w)) = solidMesh (comp w) /\
    compiledFunc (set_three (Some rig') (comp w)) = compiledFunc (comp w).
Proof.
  intros H. unfold onWindowResize, on_rig. rewrite H.
  eexists. split; [reflexivity |]. cbn. repeat split.
Qed.



Lemma written_same_sample f t r v1 v2 v1' v2' :
  vx v1 = vx v2 -> vz v1 = vz v2 ->
  written impl f t r v1 v1' -> written impl f t r v2 v2' -> v1' = v2'.
Proof.
  intros Ex Ez (y1 & H1 & ->) (y2 & H2 & ->).
  rewrite Ex, Ez in H1. rewrite H1 in H2. injection H2 as <-.
  unfold set_vy. now rewrite Ex, Ez.
Qed.

Lemma written_same_samples f t r vs1 : forall vs2 vs1' vs2',
  map xz vs1 = map xz vs2 ->
  Forall2 (written impl f t r) vs1 vs1' ->
  Forall2 (written impl f t r) vs2 vs2' -> vs1' = vs2'.
Proof.
  induction vs1 as [ | v1 vs1 IH]; intros [ | v2 vs2] vs1' vs2' E H1 H2;
    try discriminate; inversion H1; subst; inversion H2; subst.
  - reflexivity.
  - cbn [map] in E. injection E as E Ez Ex. f_equal.
    + eapply written_same_sample; eassumption.
    + eapply IH; eassumption.
Qed.

(** The update with an evaluator that leaves the realm alone. *)
Lemma updateGraph_pure w oe wm sm t :
  compiledFunc (comp w) = Some (guard oe) ->
  JS.pure (guard oe) = true ->
  wireframeMesh (comp w) = Some wm ->
  solidMesh (comp w) = Some sm ->
  exists w' wm' sm',
    updateGraph impl t w = Ok w' /\
    wireframeMesh (comp w') = Some wm' /\
    solidMesh (comp w') = Some sm' /\
    realm (env w') = realm (env w) /\
    Forall2 (written impl (guard oe) t (realm (env w)))
      (position (geometry wm)) (position (geometry wm')) /\
    Forall2 (written impl (guard oe) t (realm (env w)))
      (position (geometry sm)) (position (geometry sm')).
Proof.
  intros Hf Hp Hw Hs.
  destruct (updateGraph_guard impl t w wm sm oe Hw Hs Hf)
    as (vw & vs & r1 & r2 & E1 & E2 & -> & _).
  assert (Hcall : forall x z, exists y,
             JS.call impl (guard oe) [JS.VNum x; JS.VNum z; JS.VNum t] (realm (env w))
             = (JS.Normal y, realm (env w))).
  { intros x z. now apply call_guard_pure. }
  destruct (updateVertices_pure impl (guard oe) t (realm (env w))
              (position (geometry wm)) Hcall) as (vw' & E1' & F1).
  rewrite E1 in E1'. injection E1' as -> ->.
  destruct (updateVertices_pure impl (guard oe) t (realm (env w))
              (position (geometry sm)) Hcall) as (vs' & E2' & F2).
  rewrite E2 in E2'. injection E2' as -> ->.
  eexists _, _, _. split; [reflexivity |]. cbn. repeat split; assumption.
Qed.

Lemma saddle_value t r :
  output impl (guard (Some saddle)) (F64.of_Z 2) (F64.of_Z 3) t r
  = JS.Normal (JS.VNum (F64.of_Z (-5))).
Proof. reflexivity. Qed.





Lemma mem_params n :
  JS.mem n ["x"; "y"; "t"]%string = false ->
  forall args, JS.lookup_scope n (JS.bind_params ["x"; "y"; "t"]%string args) = None.
Proof.
  cbn [JS.mem existsb]. intros H args.
  apply orb_false_elim in H. destruct H as [Hx H].
  apply orb_false_elim in H. destruct H as [Hy H].
  apply orb_false_elim in H. destruct H as [Ht _].
  cbn [JS.bind_params app JS.lookup_scope].
  rewrite (String.eqb_sym "t" n), Ht, (String.eqb_sym "y" n), Hy,
    (String.eqb_sym "x" n), Hx.
  reflexivity.
Qed.




End Claims.

(** * The claims on the example page *)

Lemma mounted_reachable text w :
  mounted text = Some w -> reachable coarse patch Live w.
Proof.
  unfold mounted.
  destruct (handle coarse (SetFormula text) (construct page)) as [w0 |] eqn:E;
    [| discriminate].
  intros H. apply (reach_init coarse patch w0 w); [| exact H].
  apply (reach_bind coarse patch (construct page) (SetFormula text) w0);
    [| discriminate | exact E].
  apply reach_new. repeat split. cbn. lia.
Qed.

(** The component of [demo text] after [ngOnDestroy]. *)
Definition unmounted (text : string) : World :=
  match settle (ngOnDestroy (demo text)) with
  | Some w => w
  | None => demo text
  end.

Lemma unmounted_reachable text :
  mounted text = Some (demo text) ->
  reachable coarse patch Destroyed (unmounted text).
Proof.
  intros H. apply (reach_destroy coarse patch (demo text)).
  - now apply (mounted_reachable text).
  - reflexivity.
Qed.

Definition tenth : float := F64.of_decimal 1 1.













Lemma C7_witness :
  exists rig,
    three (comp (demo "x*y")) = Some rig /\
    exists rig',
      onWindowResize (demo "x*y")
        = Ok (with_comp (set_three (Some rig') (comp (demo "x*y"))) (demo "x*y")) /\
      fov (camera rig') = fov (camera rig).
Proof.
  assert (H : exists rig, three (comp (demo "x*y")) = Some rig) by (vm_compute; eauto).
  destruct H as [rig H]. exists rig. split; [exact H |].
  destruct (C7_resize_touches_aspect_and_size_only (demo "x*y") rig H)
    as (rig' & E & Hfov & _).
  exists rig'. split; [exact E | exact Hfov].
Defined.





(** * Further properties *)

Section Views.

Variable impl : JS.MathImpl.
Variable planeGeometry : list Vertex.

#[local] Arguments F64.of_decimal : simpl never.
#[local] Arguments F64.of_Z : simpl never.
#[local] Arguments F64.div : simpl never.

Lemma compileFormula_compiled w :
  match compiled (formula (comp w)) with
  | Some cf =>
      compileFormula w = Ok (with_comp (set_compiledFunc cf (comp w)) w) /\
      match cf with Some f => exists oe, f = guard oe | None => True end
  | None => compileFormula w = OutOfModel
  end.
Proof.
  unfold compiled, compileFormula.
  destruct (JS.Function_ctor _ _) as [f | |] eqn:E; auto.
  split; [reflexivity |]. now apply template_shape in E.
Qed.

Lemma repaint_refl w :
  wireframeMesh (comp w) <> None -> solidMesh (comp w) <> None -> repaint w w.
Proof.
  intros Hw Hs.
  destruct (wireframeMesh (comp w)) as [wm |] eqn:Ew; [| congruence].
  destruct (solidMesh (comp w)) as [sm |] eqn:Es; [| congruence].
  exists wm, sm, (realm (env w)).
  destruct w as [[] []]. cbn in *. now subst.
Qed.

Lemma updateGraph_shown t w :
  guarded w -> Shown planeGeometry w ->
  exists w', updateGraph impl t w = Ok w' /\ Shown planeGeometry w' /\ repaint w w'.
Proof.
  intros Hg (rig & wm & sm & H3 & Hw & Hs & Hc & Xw & Xs & Mw & Ms & Hn & Hk
             & Hfov & Hnear & Hfar & Hcam & Hasp).
  unfold guarded in Hg.
  destruct (compiledFunc (comp w)) as [f |] eqn:Hf.
  2: { exists w. rewrite updateGraph_idle by auto. split; [reflexivity |]. split.
       - exists rig, wm, sm. rewrite Hf.
         repeat (split; [assumption |]). assumption.
       - apply repaint_refl; congruence. }
  destruct Hg as [oe ->].
  destruct (updateGraph_guard impl t w wm sm oe Hw Hs Hf)
    as (vw & vs & r1 & r2 & _ & _ & -> & X1 & X2 & N1 & N2).
  eexists. split; [reflexivity |]. split.
  - exists rig. eexists _, _. cbn.
    split; [exact H3 |]. split; [reflexivity |]. split; [reflexivity |].
    split; [rewrite Hf; exact Hc |].
    unfold samples in *. cbn.
    change (map (fun v => (vx v, vz v)) vw) with (map xz vw).
    change (map (fun v => (vx v, vz v)) vs) with (map xz vs).
    rewrite X1, X2.
    split; [exact Xw |]. split; [exact Xs |]. split; [exact Mw |].
    split; [exact Ms |]. split; [now split |].
    repeat (split; [assumption |]). assumption.
  - eexists _, _, _. reflexivity.
Qed.


Lemma Shown_comp w w' :
  comp w' = comp w -> Shown planeGeometry w -> Shown planeGeometry w'.
Proof. unfold Shown. now intros ->. Qed.

Lemma repaint_fitted w w' : repaint w w' -> Fitted w -> Fitted w'.
Proof. intros (wm & sm & r & ->) H. exact H. Qed.

Ltac shown_from H :=
  destruct H as (rig & wm & sm & H3 & Hw & Hs & Hc & Xw & Xs & Mw & Ms & Hn & Hk
                 & Hfov & Hnear & Hfar & Hcam & Hasp).

Ltac conj_assumption :=
  repeat match goal with |- _ /\ _ => split end; try eassumption; try reflexivity.

(** One step of the loop. *)
Lemma animate_shown w :
  guarded w -> Shown planeGeometry w ->
  exists rig w1 w2,
    three (comp w) = Some rig /\
    w1 = with_comp (set_three (Some (tick_controls rig))
                      (comp (requestAnimationFrame w))) (requestAnimationFrame w) /\
    (if isAnimated (comp w) then updateGraph impl (elapsed w1) w1 = Ok w2 else w2 = w1) /\
    repaint w1 w2 /\ Shown planeGeometry w2 /\
    animate impl w
      = Ok (with_comp (set_three (Some (render (tick_controls rig))) (comp w2)) w2).
Proof.
  intros Hg HS. pose proof HS as HS0. shown_from HS.
  unfold animate, on_rig at 1.
  cbn [three comp requestAnimationFrame set_animationFrameId].
  rewrite H3. cbn [and_then].
  set (w1 := with_comp _ _).
  assert (Hg1 : guarded w1) by exact Hg.
  assert (HS1 : Shown planeGeometry w1).
  { eexists _, _, _. cbn. split; [reflexivity |]. conj_assumption. }
  assert (Hstep : exists w2,
             (if isAnimated (comp w) then updateGraph impl (elapsed w1) w1 = Ok w2
              else w2 = w1) /\
             (if isAnimated (comp w1) then updateGraph impl (elapsed w1) w1 else Ok w1)
             = Ok w2 /\
             repaint w1 w2 /\ Shown planeGeometry w2).
  { change (isAnimated (comp w1)) with (isAnimated (comp w)).
    destruct (isAnimated (comp w)).
    - destruct (updateGraph_shown (elapsed w1) w1 Hg1 HS1) as (w2 & E & HS2 & Hr).
      exists w2. now repeat split.
    - exists w1. repeat split; [| exact HS1].
      destruct HS1 as (? & ? & ? & _ & Hw1 & Hs1 & _).
      apply repaint_refl; congruence. }
  destruct Hstep as (w2 & Hif & -> & Hr & HS2). cbn [and_then].
  exists rig, w1, w2. split; [reflexivity |]. split; [reflexivity |].
  split; [exact Hif |]. split; [exact Hr |]. split; [exact HS2 |].
  destruct Hr as (wm' & sm' & r & ->). reflexivity.
Qed.


Lemma setFormula_sync text w w' :
  guarded w -> Shown planeGeometry w -> Fitted w ->
  settle (setFormula impl text w) = Some w' ->
  Shown planeGeometry w' /\ Fitted w' /\
  resizeListener (env w') = resizeListener (env w).
Proof.
  intros Hg HS HF. shown_from HS.
  unfold setFormula, ngOnChanges.
  cbn [three comp with_comp set_formula ch_formula ch_color].
  rewrite H3.
  set (w0 := with_comp _ w).
  pose proof (compileFormula_compiled w0) as Hcomp.
  change (formula (comp w0)) with text in Hcomp.
  destruct (compiled text) as [cf |] eqn:Ecf.
  2: { rewrite Hcomp. discriminate. }
  destruct Hcomp as [-> Hcf]. cbn [and_then].
  set (w1 := with_comp _ w0).
  assert (Hg1 : guarded w1) by exact Hcf.
  assert (HS1 : Shown planeGeometry w1).
  { eexists _, _, _. cbn. conj_assumption. }
  change (isAnimated (comp w1)) with (isAnimated (comp w)).
  destruct (isAnimated (comp w)).
  - cbn. intros [= <-]. split; [exact HS1 |]. split; [exact HF | reflexivity].
  - destruct (updateGraph_shown F64.zero w1 Hg1 HS1) as (w2 & -> & HS2 & Hr).
    cbn. intros [= <-]. split; [exact HS2 |].
    split; [exact (repaint_fitted w1 w2 Hr HF) |].
    destruct Hr as (? & ? & ? & ->). reflexivity.
Qed.

Lemma setColor_sync c w w' :
  Shown planeGeometry w -> Fitted w ->
  settle (setColor impl c w) = Some w' ->
  Shown planeGeometry w' /\ Fitted w' /\
  resizeListener (env w') = resizeListener (env w).
Proof.
  intros HS HF. shown_from HS.
  unfold setColor, ngOnChanges, updateMaterials.
  cbn [three comp with_comp set_color ch_formula ch_color and_then
       wireframeMesh solidMesh color].
  rewrite H3, Hw, Hs.
  cbn. intros [= <-]. split; [| split; [exact HF | reflexivity]].
  eexists _, _, _. cbn.
  split; [exact H3 |]. split; [reflexivity |]. split; [reflexivity |].
  cbn. rewrite Mw, Ms. conj_assumption.
Qed.

Lemma animationFrame_shown w :
  Inv Live w -> Shown planeGeometry w ->
  exists h rig w1 w2,
    frameRequests (env w) = [h] /\
    three (comp w) = Some rig /\
    w1 = (let w0 := with_env (cancelAnimationFrame h (env w)) w in
          with_comp (set_three (Some (tick_controls rig))
                       (comp (requestAnimationFrame w0))) (requestAnimationFrame w0)) /\
    (if isAnimated (comp w) then updateGraph impl (elapsed w1) w1 = Ok w2 else w2 = w1) /\
    repaint w1 w2 /\ Shown planeGeometry w2 /\
    animationFrame impl w
      = Some (with_comp (set_three (Some (render (tick_controls rig))) (comp w2)) w2).
Proof.
  intros (Hg & Hp & Hn & _ & _ & h & Hq & Hid & Hh) HS.
  unfold animationFrame. rewrite Hq. cbn [run_callbacks existsb].
  rewrite Hq. cbn [existsb]. rewrite Nat.eqb_refl. cbn [orb].
  set (w0 := with_env _ w).
  destruct (animate_shown w0 Hg (Shown_comp w w0 eq_refl HS))
    as (rig & w1 & w2 & H3 & -> & Hif & Hr & HS2 & ->).
  cbn [settle]. exists h, rig. eexists _, w2.
  split; [reflexivity |]. split; [exact H3 |]. split; [reflexivity |].
  split; [exact Hif |]. split; [exact Hr |]. split; [exact HS2 | reflexivity].
Qed.

Lemma handle_live_sync e w w' :
  Inv Live w -> Sync planeGeometry Live w -> handle impl e w = Some w' ->
  Sync planeGeometry Live w'.
Proof.
  intros HI (HS & HF & HL). pose proof HI as (Hg & _).
  destruct e; cbn [handle].
  - intros H. destruct (setFormula_sync text w w' Hg HS HF H) as (A & B & C).
    split; [exact A |]. split; [exact B | congruence].
  - intros H. destruct (setColor_sync c w w' HS HF H) as (A & B & C).
    split; [exact A |]. split; [exact B | congruence].
  - shown_from HS. unfold setIsAnimated, ngOnChanges.
    cbn [three comp with_comp set_isAnimated ch_formula ch_color and_then].
    rewrite H3. cbn. intros [= <-].
    split; [| split; [exact HF | exact HL]].
    exists rig, wm, sm. cbn. conj_assumption.
  - shown_from HS. unfold setTimeScale, ngOnChanges.
    cbn [three comp with_comp set_timeScale ch_formula ch_color and_then].
    rewrite H3. cbn. intros [= <-].
    split; [| split; [exact HF | exact HL]].
    exists rig, wm, sm. cbn. conj_assumption.
  - destruct HF as (rig' & H3' & Ha & Hwd & Hht).
    shown_from HS. unfold getSnapshot, on_rig. rewrite H3. cbn. intros [= <-].
    rewrite H3 in H3'. injection H3' as <-.
    split; [| split; [| exact HL]].
    + eexists _, wm, sm. cbn. split; [reflexivity |]. conj_assumption.
    + eexists. cbn. split; [reflexivity |]. conj_assumption.
  - destruct (animationFrame_shown w HI HS)
      as (h & rig0 & w1 & w2 & Hq & H30 & -> & _ & (wm' & sm' & r & ->) & HS2 & ->).
    intros [= <-].
    destruct HF as (rig' & H3' & Ha & Hwd & Hht).
    rewrite H30 in H3'. injection H3' as <-.
    split; [| split; [| exact HL]].
    + shown_from HS2. cbn in H3, Hw, Hs, Hc, Mw, Ms. injection H3 as <-.
      eexists _, _, _. cbn. split; [reflexivity |]. conj_assumption.
    + eexists. cbn. split; [reflexivity |]. conj_assumption.
  - unfold windowResize. cbn [resizeListener env with_env set_client].
    rewrite HL. shown_from HS. unfold onWindowResize, on_rig.
    cbn [three comp with_env]. rewrite H3. cbn. intros [= <-].
    split; [| split; [| exact HL]].
    + eexists _, wm, sm. cbn. split; [reflexivity |]. conj_assumption.
    + eexists. cbn. split; [reflexivity |]. conj_assumption.
  - intros [= <-]. split; [| split; [exact HF | exact HL]].
    exact (Shown_comp w (clock dt w) eq_refl HS).
Qed.


Lemma handle_fresh_sync e w w' :
  Inv Fresh w -> e <> Snapshot -> handle impl e w = Some w' ->
  compiledFunc (comp w') = compiledFunc (comp w).
Proof.
  intros (_ & _ & _ & H3 & _ & Hq & Hl & _) He.
  destruct e; cbn [handle]; try congruence.
  - unfold setFormula. rewrite ngOnChanges_fresh by exact H3. now intros [= <-].
  - unfold setColor. rewrite ngOnChanges_fresh by exact H3. now intros [= <-].
  - unfold setIsAnimated. rewrite ngOnChanges_fresh by exact H3. now intros [= <-].
  - unfold setTimeScale. rewrite ngOnChanges_fresh by exact H3. now intros [= <-].
  - rewrite animationFrame_idle by exact Hq. now intros [= <-].
  - unfold windowResize. cbn [resizeListener env with_env set_client].
    rewrite Hl. now intros [= <-].
  - now intros [= <-].
Qed.

Lemma ngAfterViewInit_sync w w' :
  Inv Fresh w -> settle (ngAfterViewInit impl planeGeometry w) = Some w' ->
  Sync planeGeometry Live w'.
Proof.
  intros _.
  unfold ngAfterViewInit, initThree. cbn [and_then].
  set (w1 := with_comp _ w).
  pose proof (compileFormula_compiled w1) as Hcomp.
  destruct (compiled (formula (comp w1))) as [cf |] eqn:Ecf.
  2: { rewrite Hcomp. discriminate. }
  destruct Hcomp as [-> Hcf]. cbn [and_then]. unfold createGraphMeshes.
  set (w2 := with_comp (set_compiledFunc cf (comp w1)) w1).
  cbn [three comp w2 with_comp set_compiledFunc w1 set_three].
  set (w3 := with_comp _ _).
  assert (Hg3 : guarded w3) by exact Hcf.
  assert (HS3 : Shown planeGeometry w3).
  { eexists _, _, _. cbn. split; [reflexivity |]. split; [reflexivity |].
    split; [reflexivity |]. split; [exact Ecf |]. conj_assumption. now split. }
  destruct (updateGraph_shown F64.zero w3 Hg3 HS3) as (w4 & -> & HS4 & Hr4).
  cbn [and_then].
  assert (Hg4 : guarded w4) by (destruct Hr4 as (? & ? & ? & ->); exact Hg3).
  destruct (animate_shown w4 Hg4 HS4)
    as (rig & w5 & w6 & H34 & -> & _ & (wm' & sm' & r' & ->) & HS6 & ->).
  cbn [and_then addResizeListener settle]. intros [= <-].
  destruct Hr4 as (wm4 & sm4 & r4 & ->). cbn in H34. injection H34 as <-.
  split; [| split; [| reflexivity]].
  - shown_from HS6. cbn in H3, Hw, Hs, Hc, Mw, Ms. injection H3 as <-.
    eexists _, _, _. cbn. split; [reflexivity |]. conj_assumption.
  - eexists. cbn. split; [reflexivity |]. conj_assumption.
Qed.

Theorem reachable_sync ph w :
  reachable impl planeGeometry ph w -> Sync planeGeometry ph w.
Proof.
  induction 1 as [b _ | w e w' Hr IH He H | w w' Hr IH H
                  | w e w' Hr IH H | w w' Hr IH H | w w' Hr IH H
                  | w e w' Hr IH He H];
    try apply reachable_inv in Hr.
  - reflexivity.
  - cbn in *. now rewrite (handle_fresh_sync e w w' Hr He H).
  - now apply (ngAfterViewInit_sync w w').
  - now apply (handle_live_sync e w w').
  - cbn in H. injection H as <-. left.
    exact (Shown_comp w _ eq_refl (proj1 IH)).
  - cbn in H. injection H as <-. right.
    destruct Hr as (_ & _ & _ & H3 & Hm & _). now split.
  - destruct (handle_destroyed impl e w Hr He) as (w'' & E & _ & Hc & _).
    rewrite E in H. injection H as <-. cbn in *.
    destruct IH as [HS | [A B]].
    + left. now apply (Shown_comp w w'').
    + right. now rewrite Hc.
Qed.









Lemma lex_run_blank s :
  all_blank s = true -> JS.lex_run JS.LStart s = Some (JS.LStart, []).
Proof.
  induction s as [ | c s IH]; cbn [all_blank JS.lex_run]; [reflexivity |].
  intros H. apply andb_prop in H. destruct H as [Hc Hs].
  cbn [JS.step]. unfold JS.step_start. rewrite Hc, (IH Hs). reflexivity.
Qed.

Lemma set_vy_heights_zero f t r vs vs' :
  (forall x z, output impl f x z t r = JS.Normal JS.VUndef) ->
  Forall2 (written impl f t r) vs vs' ->
  Forall (fun h => h = F64.zero) (map vy vs') /\ map xz vs' = map xz vs.
Proof.
  intros Hout. induction 1 as [ | v v' vs vs' (y & Hy & ->) _ [IH1 IH2]]; cbn [map].
  - split; [constructor | reflexivity].
  - rewrite Hout in Hy. injection Hy as <-. split.
    + constructor; [reflexivity | exact IH1].
    + now rewrite IH2.
Qed.


Lemma updateVertices_again f t r vs : forall vs',
  (forall x z, exists y,
      JS.call impl f [JS.VNum x; JS.VNum z; JS.VNum t] r = (JS.Normal y, r)) ->
  updateVertices impl f t vs r = (JS.Normal tt, vs', r) ->
  updateVertices impl f t vs' r = (JS.Normal tt, vs', r).
Proof.
  intros vs' Hcall. revert vs'.
  induction vs as [ | v vs IH]; intros vs'; cbn [updateVertices].
  - now intros [= <-].
  - destruct (Hcall (vx v) (vz v)) as [y Hy]. rewrite Hy.
    destruct (updateVertices_pure impl f t r vs Hcall) as (vs1 & E & _).
    rewrite E. intros [= <-]. cbn [updateVertices set_vy vx vz].
    rewrite Hy, (IH vs1 E). reflexivity.
Qed.


(** X11.  [ngOnDestroy] is idempotent: calling it on the state it leaves
    changes nothing.  On a component whose view was never initialised it
    changes nothing at all: there is no frame request to cancel and no
    listener to remove. *)
Theorem X11_destroying_twice_is_destroying_once :
  (forall w w1, ngOnDestroy w = Ok w1 -> ngOnDestroy w1 = Ok w1) /\
  (forall w, reachable impl planeGeometry Fresh w -> ngOnDestroy w = Ok w).
Proof.
  split.
  - intros w w1. unfold ngOnDestroy. intros [= <-].
    cbn [comp with_env env]. f_equal. unfold with_env. cbn [comp env]. f_equal.
    destruct (animationFrameId (comp w)) as [[ | h] | ]; [reflexivity | | reflexivity].
    unfold cancelAnimationFrame, set_frameRequests, set_resizeListener.
    cbn [now frameRequests nextHandle resizeListener clientWidth clientHeight realm].
    now rewrite list_filter_filter_l by auto.
  - intros w Hr. apply reachable_inv in Hr.
    destruct Hr as (_ & _ & _ & _ & _ & _ & Hl & Hid).
    unfold ngOnDestroy. rewrite Hid.
    destruct w as [c [n q k l cw ch r]]. cbn in *. now subst.
Qed.




Lemma lookup_update_scope n m v sc :
  JS.lookup_scope n (JS.update_scope m v sc) = None <-> JS.lookup_scope n sc = None.
Proof.
  induction sc as [ | [k u] sc IH]; cbn [JS.update_scope JS.lookup_scope]; [tauto |].
  destruct (String.eqb k m) eqn:Ekm; cbn [JS.lookup_scope];
    destruct (String.eqb k n); try tauto. split; discriminate.
Qed.

Lemma lookup_scope_app n l1 l2 :
  JS.lookup_scope n (l1 ++ l2) =
  match JS.lookup_scope n l1 with
  | Some v => Some v
  | None => JS.lookup_scope n l2
  end.
Proof.
  induction l1 as [ | [k u] l1 IH]; cbn [app JS.lookup_scope]; [reflexivity |].
  now destruct (String.eqb k n).
Qed.

Lemma binds_bind_params ps : forall args, binds ps (JS.bind_params ps args).
Proof.
  induction ps as [ | p ps IH]; intros args n; cbn [JS.mem existsb JS.bind_params].
  - discriminate.
  - intros H. rewrite lookup_scope_app.
    destruct (JS.lookup_scope n (JS.bind_params ps (tl args))) eqn:E; [discriminate |].
    apply orb_prop in H. destruct H as [H | H].
    + cbn [JS.lookup_scope]. rewrite String.eqb_sym, H. discriminate.
    + now apply (IH (tl args)) in H.
Qed.

Section Local.

Variable ps : list string.

Lemma kept_refl st : binds ps (JS.scope st) -> kept ps st st.
Proof. now split. Qed.

Lemma kept_trans st1 st2 st3 : kept ps st1 st2 -> kept ps st2 st3 -> kept ps st1 st3.
Proof. intros [A B] [C D]. split; [congruence | exact D]. Qed.

Lemma eval_local e :
  local_expr ps e = true ->
  forall st, binds ps (JS.scope st) -> kept ps st (snd (JS.eval impl e st)).
Proof.
  induction e as [n | n | p | f args IHf IHargs | e IH | e IH
                  | op a b IHa IHb | a b IHa IHb | n e IH | p e IH]
    using expr_rect'; cbn [local_expr]; intros Hp st Hb; try discriminate.
  - now apply kept_refl.
  - rewrite (eval_pure impl (JS.EId n) eq_refl). now apply kept_refl.
  - rewrite (eval_pure impl (JS.EMath p) eq_refl). now apply kept_refl.
  - apply andb_prop in Hp. destruct Hp as [Hf Hargs].
    rewrite eval_call. unfold JS.bind at 1.
    specialize (IHf Hf st Hb).
    destruct (JS.eval impl f st) as [[fv |] st1]; cbn [snd] in IHf |- *; [| exact IHf].
    assert (Hl : forall st0, binds ps (JS.scope st0) ->
                             kept ps st0 (snd (JS.eval_args impl args st0))).
    { clear fv Hf IHf st st1 Hb.
      induction IHargs as [ | a l Ha _ IHl]; intros st Hb.
      - now apply kept_refl.
      - cbn [forallb] in Hargs. apply andb_prop in Hargs. destruct Hargs as [Hpa Hpl].
        rewrite eval_args_cons. unfold JS.bind at 1.
        specialize (Ha Hpa st Hb).
        destruct (JS.eval impl a st) as [[v |] st1]; cbn [snd] in Ha |- *; [| exact Ha].
        unfold JS.bind. specialize (IHl Hpl st1 (proj2 Ha)).
        destruct (JS.eval_args impl l st1) as [[vs |] st2]; cbn [snd] in IHl |- *;
          exact (kept_trans _ _ _ Ha IHl). }
    unfold JS.bind. specialize (Hl st1 (proj2 IHf)).
    destruct (JS.eval_args impl args st1) as [[vs |] st2]; cbn [snd] in Hl |- *;
      [| exact (kept_trans _ _ _ IHf Hl)].
    destruct fv; exact (kept_trans _ _ _ IHf Hl).
  - cbn. unfold JS.bind. specialize (IH Hp st Hb).
    destruct (JS.eval impl e st) as [[v |] st1]; exact IH.
  - cbn. unfold JS.bind. specialize (IH Hp st Hb).
    destruct (JS.eval impl e st) as [[v |] st1]; exact IH.
  - apply andb_prop in Hp. destruct Hp as [Ha Hb'].
    cbn. unfold JS.bind. specialize (IHa Ha st Hb).
    destruct (JS.eval impl a st) as [[l |] st1]; cbn [snd] in IHa |- *; [| exact IHa].
    specialize (IHb Hb' st1 (proj2 IHa)).
    destruct (JS.eval impl b st1) as [[r |] st2]; cbn [snd] in IHb |- *;
      exact (kept_trans _ _ _ IHa IHb).
  - apply andb_prop in Hp. destruct Hp as [Ha Hb'].
    cbn. unfold JS.bind. specialize (IHa Ha st Hb).
    destruct (JS.eval impl a st) as [[l |] st1]; cbn [snd] in IHa |- *; [| exact IHa].
    destruct (JS.ToBoolean l); [exact IHa |].
    exact (kept_trans _ _ _ IHa (IHb Hb' st1 (proj2 IHa))).
  - apply andb_prop in Hp. destruct Hp as [Hn He].
    cbn. unfold JS.bind. specialize (IH He st Hb).
    destruct (JS.eval impl e st) as [[v |] st1]; cbn [snd] in IH |- *; [| exact IH].
    unfold JS.put_ident. destruct IH as [Hr Hb1].
    destruct (JS.lookup_scope n (JS.scope st1)) eqn:E.
    + cbn. split; [exact Hr |]. intros m Hm Hu.
      apply lookup_update_scope in Hu. now apply (Hb1 m Hm).
    + now apply Hb1 in Hn.
Qed.

Lemma binds_cons p v sc : binds ps sc -> binds ps ((p, v) :: sc).
Proof.
  intros H n Hn. cbn [JS.lookup_scope].
  destruct (String.eqb p n); [discriminate | now apply H].
Qed.

Lemma exec_local s :
  local_stmt ps s = true ->
  forall st, binds ps (JS.scope st) -> kept ps st (snd (JS.exec impl s st)).
Proof.
  induction s as [[e |] | block IHb p handler IHh]; cbn [local_stmt]; intros Hp st Hb.
  - now apply eval_local.
  - now apply kept_refl.
  - apply andb_prop in Hp. destruct Hp as [Hpb Hph].
    cbn. specialize (IHb Hpb st Hb).
    destruct (JS.exec impl block st) as [[v |] st1]; cbn [snd] in IHb |- *; [exact IHb |].
    destruct IHb as [Hr Hb1].
    destruct (IHh Hph {| JS.scope := (p, JS.VError) :: JS.scope st1;
                         JS.realm := JS.realm st1 |}) as [Hr2 Hb2].
    { now apply binds_cons. }
    split; [| exact Hb2]. cbn in Hr2. congruence.
Qed.

End Local.

(** X9.  Assignments to the parameters stay inside the call.  A function
    whose body assigns only to its own parameters (for the component: to
    x, y and t) leaves the global object and the Math object exactly as they
    were, whatever the arguments. *)
Theorem X9_assignments_to_the_parameters_stay_local f args r :
  local_stmt (JS.params f) (JS.body f) = true ->
  snd (JS.call impl f args r) = r.
Proof.
  intros Hl. unfold JS.call.
  pose proof (exec_local (JS.params f) (JS.body f) Hl
                {| JS.scope := JS.bind_params (JS.params f) args; JS.realm := r |}
                (binds_bind_params (JS.params f) args)) as [H _].
  destruct (JS.exec impl (JS.body f) _) as [c st]. exact H.
Qed.

End Views.

(** ** Presets *)

Section Presets.

Variable impl : JS.MathImpl.
Variable planeGeometry : list Vertex.

Lemma updateGraph_set_color c t w :
  updateGraph impl t (with_comp (set_color c (comp w)) w)
  = coloured c (updateGraph impl t w).
Proof.
  unfold updateGraph.
  cbn [comp env with_comp set_color wireframeMesh solidMesh compiledFunc].
  destruct (wireframeMesh (comp w)) as [wm |]; [| reflexivity].
  destruct (compiledFunc (comp w)) as [f |]; [| reflexivity].
  destruct (solidMesh (comp w)) as [sm |]; [| reflexivity].
  destruct (updateGeometry impl f t (geometry wm) (realm (env w))) as [[[] gw] r1];
    [| reflexivity].
  destruct (updateGeometry impl f t (geometry sm) r1) as [[[] gs] r2]; reflexivity.
Qed.

Lemma compileFormula_set_color c w :
  compileFormula (with_comp (set_color c (comp w)) w) = coloured c (compileFormula w).
Proof.
  unfold compileFormula. cbn [comp with_comp set_color formula].
  destruct (JS.Function_ctor _ _); reflexivity.
Qed.


End Presets.

(** ** On the example page *)

Lemma bound_reachable text : reachable coarse patch Fresh (bound text).
Proof.
  apply (reach_bind coarse patch (construct page) (SetFormula text));
    [| discriminate | reflexivity].
  apply reach_new. repeat split. cbn. lia.
Qed.

Lemma demo_reachable : reachable coarse patch Live (demo "x*y").
Proof. apply (mounted_reachable "x*y"). vm_compute. reflexivity. Qed.









Lemma X9_witness :
  local_stmt ["x"; "y"; "t"]%string
    (JS.body (guard (Some (JS.EAssign "x" (JS.ENum JS.one))))) = true /\
  snd (JS.call coarse (guard (Some (JS.EAssign "x" (JS.ENum JS.one))))
         [JS.VNum F64.zero] JS.initial_realm) = JS.initial_realm.
Proof.
  split; [reflexivity |].
  exact (X9_assignments_to_the_parameters_stay_local coarse
           (guard (Some (JS.EAssign "x" (JS.ENum JS.one))))
           [JS.VNum F64.zero] JS.initial_realm eq_refl).
Defined.


Lemma X11_witness :
  ngOnDestroy (demo "x*y") = Ok (unmounted "x*y") /\
  ngOnDestroy (unmounted "x*y") = Ok (unmounted "x*y").
Proof.
  assert (H : ngOnDestroy (demo "x*y") = Ok (unmounted "x*y")) by reflexivity.
  split; [exact H |].
  exact (proj1 (X11_destroying_twice_is_destroying_once coarse patch)
           (demo "x*y") (unmounted "x*y") H).
Defined.

(** ** The AI service *)

Section AiFacts.

Import Ai.

Variable JSON_stringify : any -> stringified.

Lemma app_cons c a b : (String c a ++ b = String c (a ++ b))%string.
Proof. reflexivity. Qed.

Lemma app_nil_l' b : ("" ++ b = b)%string.
Proof. reflexivity. Qed.

Lemma prefix_spec p : forall s,
  String.prefix p s = true <-> exists b, s = (p ++ b)%string.
Proof.
  induction p as [ | c p IH]; intros s.
  - split; [intros _; now exists s | intros _; now destruct s].
  - destruct s as [ | d s]; cbn [String.prefix].
    + split; [discriminate | intros [b H]; rewrite app_cons in H; discriminate].
    + destruct (Ascii.ascii_dec c d) as [-> | Hn].
      * rewrite IH. split; intros [b H]; exists b.
        -- rewrite app_cons. now f_equal.
        -- rewrite app_cons in H. now injection H.
      * split; [discriminate |].
        intros [b H]. rewrite app_cons in H. injection H as H _. congruence.
Qed.

Lemma includes_spec s : forall p, includes s p = true <-> occurs p s.
Proof.
  unfold occurs. induction s as [ | c s IH]; intros p; cbn [includes].
  - rewrite orb_false_r, prefix_spec. split.
    + intros [b H]. exists ""%string, b. exact H.
    + intros (a & b & H). destruct a as [ | x a]; [| rewrite app_cons in H; discriminate].
      now exists b.
  - rewrite orb_true_iff, prefix_spec, IH. split.
    + intros [[b H] | (a & b & H)].
      * exists ""%string, b. exact H.
      * exists (String c a), b. rewrite app_cons. now f_equal.
    + intros (a & b & H). destruct a as [ | x a].
      * left. now exists b.
      * right. rewrite app_cons in H. injection H as _ H. now exists a, b.
Qed.


Lemma toLowerCase_app a : forall b,
  toLowerCase (a ++ b) =
  match toLowerCase a, toLowerCase b with
  | Some x, Some y => Some (x ++ y)%string
  | _, _ => None
  end.
Proof.
  induction a as [ | c a IH]; intros b.
  - rewrite app_nil_l'. cbn [toLowerCase]. now destruct (toLowerCase b).
  - rewrite app_cons. cbn [toLowerCase]. destruct (is_ascii c); [| reflexivity].
    rewrite IH. destruct (toLowerCase a); [| reflexivity].
    now destruct (toLowerCase b).
Qed.

Lemma toLowerCase_split x : forall s y,
  toLowerCase s = Some (x ++ y)%string ->
  exists sx sy,
    s = (sx ++ sy)%string /\ toLowerCase sx = Some x /\ toLowerCase sy = Some y.
Proof.
  induction x as [ | c x IH]; intros s y H.
  - exists ""%string, s. now repeat split.
  - rewrite app_cons in H. destruct s as [ | d s]; [discriminate |].
    cbn [toLowerCase] in H. destruct (is_ascii d) eqn:Ed; [| discriminate].
    destruct (toLowerCase s) as [l |] eqn:El; [| discriminate].
    cbn in H. injection H as Hc Hl. subst l.
    destruct (IH s y El) as (sx & sy & -> & Hx & Hy).
    exists (String d sx), sy. rewrite app_cons. split; [reflexivity |].
    split; [| exact Hy]. cbn [toLowerCase]. rewrite Ed, Hx. cbn. now rewrite Hc.
Qed.

(** Searching the lower-cased text is searching the text for any
    capitalisation. *)
Lemma occurs_lower p s l :
  toLowerCase s = Some l -> (occurs p l <-> mentions p s).
Proof.
  intros Hl. split.
  - intros (a & b & ->).
    destruct (toLowerCase_split a s _ Hl) as (sa & s1 & -> & Ha & H1).
    destruct (toLowerCase_split p s1 _ H1) as (m & sb & -> & Hm & Hb).
    now exists sa, m, sb.
  - intros (a & m & b & -> & Hm). rewrite !toLowerCase_app, Hm in Hl.
    destruct (toLowerCase a) as [la |]; [| discriminate].
    destruct (toLowerCase b) as [lb |]; [| discriminate].
    injection Hl as <-. now exists la, lb.
Qed.

(** X12.  [processError] reads the type of an error off its JSON text, in
    which the markers count wherever they stand.  The type is PERMISSION
    exactly when the text holds 403 or, in any capitalisation, the word
    permission, whether or not it also holds 429 or quota; it is QUOTA
    exactly when it holds 429 or quota and neither of the former; it is
    UNKNOWN exactly when it holds none of the four. *)
Theorem X12_error_type_is_read_off_the_json_text error s e :
  JSON_stringify error = Text s ->
  processError JSON_stringify error = Returns e ->
  (type e = PERMISSION <-> mentions "403" s \/ mentions "permission" s) /\
  (type e = QUOTA <->
     (mentions "429" s \/ mentions "quota" s) /\
     ~ (mentions "403" s \/ mentions "permission" s)) /\
  (type e = UNKNOWN <->
     ~ (mentions "429" s \/ mentions "quota" s \/
        mentions "403" s \/ mentions "permission" s)).
Proof.
  intros Hs. unfold processError. rewrite Hs.
  destruct (toLowerCase s) as [l |] eqn:El; [| discriminate].
  rewrite <- !(occurs_lower _ s l El), <- !includes_spec.
  destruct (or_else _ _); try discriminate. intros [= <-]. cbn [type].
  destruct (includes l "429"), (includes l "quota"), (includes l "403"),
    (includes l "permission"); cbn; repeat split; intros; try discriminate;
    try tauto; try (intuition discriminate).
Qed.

Lemma or_else_truthy a b : ToBoolean b = true -> ToBoolean (or_else a b) = true.
Proof. unfold or_else. intros H. now destruct (ToBoolean a) eqn:E. Qed.



Variable type_error : any.
Variable API_KEY : any.

Lemma wait_until_done_more polls : forall operation waits more,
  wait_until_done type_error operation polls waits <> Starved ->
  wait_until_done type_error operation (polls ++ more) waits
  = wait_until_done type_error operation polls waits.
Proof.
  induction polls as [ | a polls IH]; intros operation waits more;
    cbn [wait_until_done app].
  - destruct more; cbn [wait_until_done]; [reflexivity |].
    destruct (nullish operation); [reflexivity |].
    destruct (ToBoolean (get operation Kdone)); [reflexivity | congruence].
  - destruct (nullish operation); [reflexivity |].
    destruct (ToBoolean (get operation Kdone)); [reflexivity |].
    destruct a as [op | e]; [| reflexivity].
    destruct (nullish op); [reflexivity |].
    destruct (ToBoolean (get op Kerror)); [reflexivity |].
    apply IH.
Qed.

Lemma wait_until_done_first polls : forall operation waits op n,
  wait_until_done type_error operation polls waits = Done op n ->
  exists j,
    n = (waits + j)%nat /\
    nth_error (Answers operation :: polls) j = Some (Answers op) /\
    ToBoolean (get op Kdone) = true /\
    (forall i o,
        (i < j)%nat -> nth_error (Answers operation :: polls) i = Some (Answers o) ->
        ToBoolean (get o Kdone) = false) /\
    (forall i o,
        (0 < i <= j)%nat ->
        nth_error (Answers operation :: polls) i = Some (Answers o) ->
        ToBoolean (get o Kerror) = false).
Proof.
  induction polls as [ | a polls IH]; intros operation waits op n;
    cbn [wait_until_done].
  - destruct (nullish operation); [discriminate |].
    destruct (ToBoolean (get operation Kdone)) eqn:Ed; [| discriminate].
    intros [= <- <-]. exists 0%nat.
    split; [lia |]. split; [reflexivity |]. split; [exact Ed |]. split; intros; lia.
  - destruct (nullish operation); [discriminate |].
    destruct (ToBoolean (get operation Kdone)) eqn:Ed.
    { intros [= <- <-]. exists 0%nat.
      split; [lia |]. split; [reflexivity |]. split; [exact Ed |]. split; intros; lia. }
    destruct a as [op1 | e]; [| discriminate].
    destruct (nullish op1); [discriminate |].
    destruct (ToBoolean (get op1 Kerror)) eqn:Ee; [discriminate |].
    intros H. destruct (IH _ _ _ _ H) as (j & -> & Hj & Hd & Hbefore & Herr).
    exists (S j). split; [lia |]. split; [exact Hj |]. split; [exact Hd |]. split.
    + intros [ | i] o Hi Ho; cbn [nth_error] in Ho.
      * now injection Ho as <-.
      * apply (Hbefore i o); [lia | exact Ho].
    + intros [ | [ | i]] o Hi Ho; cbn [nth_error] in Ho; [lia | |].
      * now injection Ho as <-.
      * apply (Herr (S i) o); [lia | exact Ho].
Qed.

(** X14.  [generateMathVideo] looks at [operation.error] only in the answer
    to a poll.  An operation that is done when [generateVideos] answers is
    taken as it is, whatever error it carries and whatever a poll would
    answer: the promise resolves with the URI of the first video followed
    by the key, and with the text [undefined&key=...] when the operation
    holds no video URI. *)
Theorem X14_an_operation_done_at_once_is_not_checked operation polls k :
  nullish operation = false ->
  ToBoolean (get operation Kdone) = true ->
  ToString API_KEY = Some k ->
  (forall u,
      get (get (get (get (get operation Kresponse) KgeneratedVideos) K0) Kvideo) Kuri
        = Str u ->
      generateMathVideo JSON_stringify type_error API_KEY (Answers operation) polls
        = Resolved (u ++ "&key=" ++ k)) /\
  (get (get (get (get (get operation Kresponse) KgeneratedVideos) K0) Kvideo) Kuri
     = Undefined ->
   generateMathVideo JSON_stringify type_error API_KEY (Answers operation) polls
     = Resolved ("undefined&key=" ++ k)).
Proof.
  intros Hn Hd Hk.
  assert (E : wait_until_done type_error operation polls 0 = Done operation 0).
  { destruct polls; cbn [wait_until_done]; now rewrite Hn, Hd. }
  unfold generateMathVideo. rewrite E, Hk.
  split; [intros u Hu | intros Hu]; now rewrite Hu.
Qed.

(** X15.  The first answer that is done settles [generateMathVideo].  Once
    the answers received make the promise resolve or reject, the answers
    that would follow change nothing.  When the polling loop ends normally
    after [n] waits, it ends with answer [n] (the operation itself being
    answer 0): that answer is done, no answer before it was, and no answer
    to a poll up to it carried an error. *)
Theorem X15_the_first_answer_that_is_done_settles_the_video :
  (forall first polls more,
      generateMathVideo JSON_stringify type_error API_KEY first polls <> Pending ->
      generateMathVideo JSON_stringify type_error API_KEY first (polls ++ more)
      = generateMathVideo JSON_stringify type_error API_KEY first polls) /\
  (forall operation polls op n,
      wait_until_done type_error operation polls 0 = Done op n ->
      nth_error (Answers operation :: polls) n = Some (Answers op) /\
      ToBoolean (get op Kdone) = true /\
      (forall i o,
          (i < n)%nat -> nth_error (Answers operation :: polls) i = Some (Answers o) ->
          ToBoolean (get o Kdone) = false) /\
      (forall i o,
          (0 < i <= n)%nat ->
          nth_error (Answers operation :: polls) i = Some (Answers o) ->
          ToBoolean (get o Kerror) = false)).
Proof.
  split.
  - intros [operation | e] polls more; cbn [generateMathVideo]; [| reflexivity].
    intros H. rewrite wait_until_done_more; [reflexivity |].
    intros E. now rewrite E in H.
  - intros operation polls op n H.
    destruct (wait_until_done_first polls operation 0%nat op n H)
      as (j & -> & Hj & Hd & Hbefore & Herr).
    now repeat split.
Qed.

Variable type_error_message : string.

(** X17.  The snapshot fallback is for quota errors.  When the client
    rejects the image request, [generateAiImage] ends with the loading flag
    off and the image as it was.  It announces the fallback, marks Imagen
    as out of quota and schedules [captureLocalSnapshot] in 500 ms exactly
    when the JSON text of the rejection holds 429 or quota and holds
    neither 403 nor permission; otherwise it shows the message of the error
    and schedules nothing.  When the client answers, the image URL is the
    data URL of the bytes of the first image, even if these are
    [undefined]. *)
Theorem X17_snapshot_fallback_is_for_quota_errors :
  (forall error t e s,
      JSON_stringify error = Text t ->
      processError JSON_stringify error = Returns e ->
      exists s',
        App.generateAiImage_settle type_error_message
          (generateMathImage JSON_stringify type_error (Rejects error)) s = Some s' /\
        App.isImageLoading s' = false /\
        App.imageUrl s' = App.imageUrl s /\
        ((mentions "429" t \/ mentions "quota" t) /\
         ~ (mentions "403" t \/ mentions "permission" t) ->
         App.imagenStatus s' = App.Quota /\
         App.errorMessage s'
           = Some "AI Quota Exhausted. Using local high-res snapshot."%string /\
         App.timeouts s' = App.timeouts s ++ [(500%nat, App.CaptureLocalSnapshot)]) /\
        (~ ((mentions "429" t \/ mentions "quota" t) /\
            ~ (mentions "403" t \/ mentions "permission" t)) ->
         App.imagenStatus s' = App.imagenStatus s /\
         App.errorMessage s' = Some (message e) /\
         App.timeouts s' = App.timeouts s)) /\
  (forall response bytes text s,
      imageBytes response = Some bytes ->
      ToString bytes = Some text ->
      App.generateAiImage_settle type_error_message
        (generateMathImage JSON_stringify type_error (Answers response)) s
      = Some {| App.imageUrl := Some ("data:image/jpeg;base64," ++ text)%string;
                App.errorMessage := App.errorMessage s;
                App.isImageLoading := false;
                App.imagenStatus := App.Active;
                App.timeouts := App.timeouts s |}).
Proof.
  split.
  - intros error t e s Ht He. cbn [generateMathImage]. rewrite He.
    cbn [App.generateAiImage_settle].
    unfold processError in He. rewrite Ht in He.
    destruct (toLowerCase t) as [l |] eqn:El; [| discriminate].
    assert (Hm : forall p, mentions p t <-> includes l p = true).
    { intros p. rewrite <- (occurs_lower p t l El). symmetry. apply includes_spec. }
    destruct (or_else _ _); try discriminate. injection He as <-. cbn [type message].
    destruct (includes l "429") eqn:E1, (includes l "quota") eqn:E2,
      (includes l "403") eqn:E3, (includes l "permission") eqn:E4; cbn;
      (eexists; split; [reflexivity |]; cbn;
       split; [reflexivity |]; split; [reflexivity |];
       rewrite !Hm, E1, E2, E3, E4;
       split; intros H; try (now repeat split);
       exfalso; intuition discriminate).
  - intros response bytes text s Hb Ht. cbn [generateMathImage].
    now rewrite Hb, Ht.
Qed.

End AiFacts.

(** ** Rounding below a bound *)

Section Shifts.

Variables prec emax : Z.

Lemma shr_1_div2 mrs : 0 <= shr_m mrs -> shr_m (shr_1 mrs) = shr_m mrs / 2.
Proof.
  destruct mrs as [m r s]. cbn [shr_m].
  rewrite <- Z.div2_div.
  destruct m as [ | [p | p | ] | p]; cbn [shr_1 shr_m]; intros H; try lia;
    reflexivity.
Qed.

Lemma iter_shr_1_div p : forall mrs,
  0 <= shr_m mrs ->
  shr_m (SpecFloat.iter_pos shr_1 p mrs) = shr_m mrs / 2 ^ Zpos p.
Proof.
  induction p as [p IH | p IH | ]; intros mrs H; cbn [SpecFloat.iter_pos].
  - rewrite IH, IH, shr_1_div2; trivial.
    + rewrite !Z.div_div by lia. f_equal.
      rewrite Pos2Z.inj_xI, Z.pow_add_r, Z.pow_mul_r by lia.
      change (2 ^ 2) with 4. change (2 ^ 1) with 2.
      rewrite <- Z.pow_twice_r. rewrite Z.pow_mul_r by lia. change (2 ^ 2) with 4. lia.
    + now apply shr_1_nonneg.
    + apply iter_shr_1_nonneg. now apply shr_1_nonneg.
  - rewrite IH, IH; trivial.
    + rewrite Z.div_div by lia. f_equal.
      rewrite Pos2Z.inj_xO, <- Z.pow_add_r by lia. f_equal. lia.
    + now apply iter_shr_1_nonneg.
  - rewrite shr_1_div2 by exact H. reflexivity.
Qed.


Lemma round_nearest_even_bounds m l :
  m <= round_nearest_even m l <= m + 1.
Proof.
  destruct l as [ | []]; cbn; try lia. destruct (Z.even m); lia.
Qed.

(** The shift that rounding begins with. *)
Lemma shr_fexp_spec m e l mrs e' :
  0 <= m -> shr_fexp prec emax m e l = (mrs, e') ->
  e' = Z.max e (fexp prec emax (Zdigits2 m + e)) /\
  shr_m mrs = m / 2 ^ (e' - e).
Proof.
  intros Hm. unfold shr_fexp, shr.
  assert (H0 : shr_m (shr_record_of_loc m l) = m) by (destruct l as [ | []]; reflexivity).
  destruct (fexp prec emax (Zdigits2 m + e) - e) as [ | p | p] eqn:E;
    intros [= <- <-].
  - split; [lia |]. rewrite H0, Z.sub_diag. cbn. now rewrite Z.div_1_r.
  - split; [lia |]. rewrite iter_shr_1_div by lia. rewrite H0. f_equal. f_equal. lia.
  - split; [lia |]. rewrite H0, Z.sub_diag. cbn. now rewrite Z.div_1_r.
Qed.

Lemma shl_align_spec mx ex ex' m' e' :
  shl_align mx ex ex' = (m', e') ->
  e' = Z.min ex ex' /\ Zpos m' = Zpos mx * 2 ^ (ex - e').
Proof.
  unfold shl_align. destruct (ex' - ex) as [ | d | d] eqn:E; intros [= <- <-].
  - split; [lia |]. rewrite Z.sub_diag. cbn. lia.
  - split; [lia |]. rewrite Z.sub_diag. cbn. lia.
  - split; [lia |]. replace (ex - ex') with (Zpos d) by lia.
    clear E. rewrite Pos2Z.inj_pow_pos || idtac.
    induction d as [ | d IH] using Pos.peano_ind.
    + cbn. lia.
    + rewrite Pos.iter_succ, Pos2Z.inj_xO, IH, Pos2Z.inj_succ, Z.pow_succ_r by lia. lia.
Qed.

Lemma digits2_pos_size m : digits2_pos m = Pos.size m.
Proof. induction m as [m IH | m IH | ]; cbn; now rewrite ?IH. Qed.

Lemma Zdigits2_le m k :
  0 <= m < 2 ^ k -> 0 <= k -> Zdigits2 m <= k.
Proof.
  intros [H0 Hk] Hk0. destruct m as [ | p | p]; cbn; [lia | | lia].
  rewrite digits2_pos_size.
  destruct (Z.le_gt_cases (Zpos (Pos.size p)) k) as [H | H]; [exact H | exfalso].
  pose proof (Pos.size_le p) as Hs.
  assert (H2 : 2 ^ Zpos (Pos.size p) <= 2 * Zpos p).
  { rewrite <- Pos2Z.inj_pow. change (2 * Zpos p) with (Zpos p~0). exact Hs. }
  replace (Zpos (Pos.size p)) with (Z.succ k + (Zpos (Pos.size p) - k - 1)) in H2 by lia.
  rewrite Z.pow_add_r, Z.pow_succ_r in H2 by lia.
  assert (0 < 2 ^ (Zpos (Pos.size p) - k - 1)) by (apply Z.pow_pos_nonneg; lia).
  assert (0 < 2 ^ k) by (apply Z.pow_pos_nonneg; lia).
  nia.
Qed.

End Shifts.

Lemma fexp_small d : d <= 7 -> fexp F64.prec F64.emax d <= -46.
Proof. unfold fexp, emin, F64.prec, F64.emax. lia. Qed.

Lemma below_128 m e : m <= 100 * 2 ^ (- e) -> e <= 0 -> m < 2 ^ (7 - e).
Proof.
  intros H He. replace (7 - e) with (7 + - e) by lia.
  rewrite Z.pow_add_r by lia. change (2 ^ 7) with 128.
  assert (0 < 2 ^ (- e)) by (apply Z.pow_pos_nonneg; lia). lia.
Qed.

(** Rounding what is below 100 stays at or below 100. *)
Lemma binary_round_aux_at_most_100 m e l :
  0 <= m -> e <= -46 -> m < 100 * 2 ^ (- e) ->
  at_most_100 (binary_round_aux F64.prec F64.emax false m e l).
Proof.
  intros Hm He Hlt. unfold binary_round_aux.
  destruct (shr_fexp F64.prec F64.emax m e l) as [mrs1 e1] eqn:E1.
  apply shr_fexp_spec in E1; [| exact Hm]. destruct E1 as [He1 Hq1].
  assert (Hd1 : Zdigits2 m + e <= 7).
  { pose proof (Zdigits2_le m (7 - e)) as H.
    pose proof (below_128 m e). lia. }
  pose proof (fexp_small _ Hd1) as Hf1.
  assert (Hpow : 2 ^ (- e) = 2 ^ (e1 - e) * 2 ^ (- e1)).
  { rewrite <- Z.pow_add_r by lia. f_equal. lia. }
  assert (HD : 0 < 2 ^ (e1 - e)) by (apply Z.pow_pos_nonneg; lia).
  assert (HP1 : 0 < 2 ^ (- e1)) by (apply Z.pow_pos_nonneg; lia).
  assert (Hq1lt : shr_m mrs1 < 100 * 2 ^ (- e1)).
  { rewrite Hq1. apply Z.div_lt_upper_bound; [exact HD |]. rewrite Hpow in Hlt. lia. }
  assert (Hq1nn : 0 <= shr_m mrs1).
  { rewrite Hq1. apply Z.div_pos; lia. }
  pose proof (round_nearest_even_bounds (shr_m mrs1) (loc_of_shr_record mrs1)) as Hr.
  set (q2 := round_nearest_even (shr_m mrs1) (loc_of_shr_record mrs1)) in *.
  destruct (shr_fexp F64.prec F64.emax q2 e1 loc_Exact) as [mrs3 e3] eqn:E3.
  apply shr_fexp_spec in E3; [| lia]. destruct E3 as [He3 Hq3].
  assert (Hd2 : Zdigits2 q2 + e1 <= 7).
  { pose proof (Zdigits2_le q2 (7 - e1)) as H.
    pose proof (below_128 q2 e1). lia. }
  pose proof (fexp_small _ Hd2) as Hf2.
  assert (Hpow3 : 2 ^ (- e1) = 2 ^ (e3 - e1) * 2 ^ (- e3)).
  { rewrite <- Z.pow_add_r by lia. f_equal. lia. }
  assert (HD3 : 0 < 2 ^ (e3 - e1)) by (apply Z.pow_pos_nonneg; lia).
  assert (Hq3le : shr_m mrs3 <= 100 * 2 ^ (- e3)).
  { rewrite Hq3. apply Z.div_le_upper_bound; [exact HD3 |]. rewrite Hpow3 in Hq1lt.
    rewrite Hpow3 in HP1. lia. }
  assert (Hq3nn : 0 <= shr_m mrs3).
  { rewrite Hq3. apply Z.div_pos; lia. }
  destruct (shr_m mrs3) as [ | p | p]; [exact I | | lia].
  destruct (Z.leb_spec e3 (F64.emax - F64.prec)) as [Hle | Hgt].
  - right. split; [lia | exact Hq3le].
  - unfold F64.emax, F64.prec in Hgt. lia.
Qed.

Lemma binary_round_at_most_100 m e :
  e <= -46 -> Zpos m < 100 * 2 ^ (- e) ->
  at_most_100 (binary_round F64.prec F64.emax false m e).
Proof.
  intros He Hlt. unfold binary_round.
  destruct (shl_align m e _) as [m' e'] eqn:E.
  apply shl_align_spec in E. destruct E as [He' Hm'].
  apply binary_round_aux_at_most_100; [lia | lia |].
  rewrite Hm'.
  assert (Hpow : 2 ^ (- e') = 2 ^ (- e) * 2 ^ (e - e')).
  { rewrite <- Z.pow_add_r by lia. f_equal. lia. }
  assert (0 < 2 ^ (e - e')) by (apply Z.pow_pos_nonneg; lia).
  rewrite Hpow. nia.
Qed.

Lemma binary_round_aux_signed s m e l :
  0 <= m -> signed s (binary_round_aux F64.prec F64.emax s m e l).
Proof.
  intros Hm. unfold binary_round_aux.
  pose proof (shr_fexp_nonneg F64.prec F64.emax m e l Hm) as H1.
  destruct (shr_fexp F64.prec F64.emax m e l) as [mrs' e']. cbn [fst] in H1.
  pose proof (shr_fexp_nonneg F64.prec F64.emax _ e' loc_Exact
                (round_nearest_even_nonneg _ (loc_of_shr_record mrs') H1)) as H2.
  destruct (shr_fexp F64.prec F64.emax _ e' loc_Exact) as [mrs'' e'']. cbn [fst] in H2.
  destruct (shr_m mrs''); [reflexivity | | lia].
  destruct (e'' <=? F64.emax - F64.prec); reflexivity.
Qed.

Lemma binary_round_signed s m e :
  signed s (binary_round F64.prec F64.emax s m e).
Proof.
  unfold binary_round. destruct (shl_align m e _) as [mz ez].
  apply binary_round_aux_signed. lia.
Qed.

Lemma signed_not_nan s f : signed s f -> F64.is_nan f = false.
Proof. now destruct f. Qed.

Lemma abs_signed f : F64.is_nan f = false -> signed false (F64.abs f).
Proof. destruct f; cbn; congruence. Qed.

Lemma add_signed a b :
  signed false a -> signed false b -> signed false (F64.add a b).
Proof.
  destruct a as [[] | [] | | [] ma ea]; cbn [signed]; try discriminate; try contradiction;
    destruct b as [[] | [] | | [] mb eb]; cbn [signed]; try discriminate;
    try contradiction; intros _ _; try reflexivity.
  unfold F64.add, SFadd. cbn [cond_Zopp].
  destruct (shl_align ma ea _) as [m1 e1]. destruct (shl_align mb eb _) as [m2 e2].
  cbn [fst]. apply binary_round_signed.
Qed.

Lemma mul_signed a m e :
  signed false a -> signed false (F64.mul a (S754_finite false m e)).
Proof.
  destruct a as [[] | [] | | [] ma ea]; cbn [signed]; try discriminate; try contradiction;
    intros _; try reflexivity.
  unfold F64.mul, SFmul. cbn [xorb]. apply binary_round_aux_signed. lia.
Qed.

Lemma binary_normalize_not_nan m e sz :
  binary_normalize F64.prec F64.emax m e sz <> S754_nan.
Proof.
  destruct m; cbn [binary_normalize]; [discriminate | |];
    apply binary_round_not_nan.
Qed.

Lemma signed_true_at_most_100 f : signed true f -> at_most_100 f.
Proof. destruct f; cbn; auto. Qed.

Lemma hundred : F64.of_Z 100 = S754_finite false (25 * 2 ^ 48) (-46).
Proof. vm_compute. reflexivity. Qed.

(** [100 - v] is at most 100 when [v] is not negative. *)
Lemma sub_at_most_100 v :
  signed false v -> at_most_100 (F64.sub (F64.of_Z 100) v).
Proof.
  rewrite hundred.
  destruct v as [[] | [] | | [] my ey]; cbn [signed]; try discriminate;
    try contradiction; intros _.
  - right. split; [lia |]. vm_compute. discriminate.
  - reflexivity.
  - unfold F64.sub, SFsub. cbn [cond_Zopp].
    destruct (shl_align (25 * 2 ^ 48) (-46) (Z.min (-46) ey)) as [a ea] eqn:Ea.
    destruct (shl_align my ey (Z.min (-46) ey)) as [b eb] eqn:Eb.
    apply shl_align_spec in Ea. destruct Ea as [Hea Ha]. cbn [fst].
    set (ez := Z.min (-46) ey) in *.
    assert (Hez : ez <= -46) by (unfold ez; lia).
    assert (Hpow : Zpos a = 100 * 2 ^ (- ez)).
    { rewrite Ha. replace (-46 - ea) with (-46 - ez) by lia.
      replace (- ez) with (46 + (-46 - ez)) by lia.
      rewrite Z.pow_add_r by lia.
      change (Zpos (25 * 2 ^ 48)) with (100 * 2 ^ 46). lia. }
    destruct (Zpos a - Zpos b) as [ | p | p] eqn:E; cbn [binary_normalize].
    + exact I.
    + apply binary_round_at_most_100; [exact Hez | lia].
    + apply signed_true_at_most_100, binary_round_signed.
Qed.

Lemma Math_max_zero d :
  at_most_100 d ->
  Motion.Math_max F64.zero d = F64.zero \/
  exists m e,
    Motion.Math_max F64.zero d = S754_finite false m e /\
    e < 0 /\ Zpos m <= 100 * 2 ^ (- e).
Proof.
  destruct d as [[] | [] | | [] m e]; cbn [at_most_100]; try discriminate;
    try contradiction; intros H; try (left; reflexivity).
  destruct H as [H | [He Hm]]; [discriminate |].
  right. exists m, e. now repeat split.
Qed.

Lemma Math_round_percent m e :
  e < 0 -> Zpos m <= 100 * 2 ^ (- e) ->
  exists n, 0 <= n <= 100 /\ Motion.Math_round (S754_finite false m e) = F64.of_Z n.
Proof.
  intros He Hm. unfold Motion.Math_round.
  destruct (Z.leb_spec 0 e) as [H | _]; [lia |]. cbn [cond_Zopp].
  assert (HP : 0 < 2 ^ (- e)) by (apply Z.pow_pos_nonneg; lia).
  assert (H2 : 2 ^ (1 - e) = 2 * 2 ^ (- e)).
  { replace (1 - e) with (Z.succ (- e)) by lia. now rewrite Z.pow_succ_r by lia. }
  set (n := (2 * Zpos m + 2 ^ (- e)) / 2 ^ (1 - e)).
  assert (Hn : 0 <= n <= 100).
  { unfold n. rewrite H2. split.
    - apply Z.div_pos; lia.
    - apply Z.lt_succ_r, Z.div_lt_upper_bound; lia. }
  destruct (Z.eqb_spec n 0) as [E | E].
  - exists 0. split; [lia | reflexivity].
  - exists n. split; [exact Hn | reflexivity].
Qed.

Lemma or_zero_not_nan v : F64.is_nan (Motion.or_zero v) = false.
Proof. now destruct v as [[] |]. Qed.

Lemma sub_finite_not_nan a m e :
  F64.is_nan a = false -> F64.is_nan (F64.sub a (S754_finite false m e)) = false.
Proof.
  destruct a as [s | s | | s ma ea]; intros H; try discriminate H;
    unfold F64.sub, SFsub; try reflexivity.
  match goal with
  | |- context [binary_normalize ?p ?q ?z ?ez ?sz] =>
      pose proof (binary_normalize_not_nan z ez sz) as Hn;
      destruct (binary_normalize p q z ez sz)
  end; try reflexivity. now destruct Hn.
Qed.

Lemma mul_finite_not_nan a m e :
  F64.is_nan a = false -> F64.is_nan (F64.mul a (S754_finite false m e)) = false.
Proof.
  destruct a as [s | s | | s ma ea]; intros H; try discriminate H;
    unfold F64.mul, SFmul; try reflexivity.
  match goal with
  | |- context [binary_round_aux ?p ?q ?s ?z ?ez ?l] =>
      pose proof (binary_round_aux_not_nan p q s z ez l) as Hn;
      destruct (binary_round_aux p q s z ez l)
  end; try reflexivity. exfalso. apply Hn; [lia | reflexivity].
Qed.

Section Stability.

Import Motion.

(** X16.  The stability score is a whole percentage.  Whatever the motion
    sensor reports (any numbers, infinities, NaN or null in any component),
    [updateStability] sets [stabilityScore] to one of the integers
    0, 1, ..., 100, and [gyroX] and [gyroY] are not NaN.  Without
    acceleration data the three signals are left as they were. *)
Theorem X16_stability_score_is_a_whole_percentage :
  (forall a s,
      (exists n,
          0 <= n <= 100 /\
          stabilityScore (updateStability (Some a) s) = F64.of_Z n) /\
      F64.is_nan (gyroX (updateStability (Some a) s)) = false /\
      F64.is_nan (gyroY (updateStability (Some a) s)) = false) /\
  (forall s, updateStability None s = s).
Proof.
  split; [| reflexivity]. intros a s. cbn [updateStability stabilityScore gyroX gyroY].
  assert (H98 : exists m e, F64.of_decimal 98 1 = S754_finite false m e)
    by (vm_compute; eauto).
  assert (H10 : exists m e, F64.of_Z 10 = S754_finite false m e)
    by (vm_compute; eauto).
  assert (H5 : exists m e, F64.of_Z 5 = S754_finite false m e)
    by (vm_compute; eauto).
  destruct H98 as (m98 & e98 & ->). destruct H10 as (m10 & e10 & ->).
  destruct H5 as (m5 & e5 & ->).
  split; [| split; apply mul_finite_not_nan, or_zero_not_nan].
  set (total := F64.add _ _).
  assert (Ht : signed false total).
  { unfold total. repeat apply add_signed; apply abs_signed;
      try apply or_zero_not_nan.
    apply sub_finite_not_nan, or_zero_not_nan. }
  pose proof (sub_at_most_100 _ (mul_signed total m10 e10 Ht)) as Hd.
  destruct (Math_max_zero _ Hd) as [-> | (m & e & -> & He & Hm)].
  - exists 0. split; [lia | reflexivity].
  - now apply Math_round_percent.
Qed.

End Stability.

(** ** The service on an example *)

Lemma X12_witness :
  (stringify_page rate_limit = Ai.Text rate_limit_json /\
   Ai.processError stringify_page rate_limit = Ai.Returns rate_limit_error) /\
  (Ai.type rate_limit_error = Ai.PERMISSION <->
     mentions "403" rate_limit_json \/ mentions "permission" rate_limit_json) /\
  (Ai.type rate_limit_error = Ai.QUOTA <->
     (mentions "429" rate_limit_json \/ mentions "quota" rate_limit_json) /\
     ~ (mentions "403" rate_limit_json \/ mentions "permission" rate_limit_json)) /\
  (Ai.type rate_limit_error = Ai.UNKNOWN <->
     ~ (mentions "429" rate_limit_json \/ mentions "quota" rate_limit_json \/
        mentions "403" rate_limit_json \/ mentions "permission" rate_limit_json)).
Proof.
  assert (H : Ai.processError stringify_page rate_limit = Ai.Returns rate_limit_error)
    by (vm_compute; reflexivity).
  split; [split; [reflexivity | exact H] |].
  exact (X12_error_type_is_read_off_the_json_text stringify_page rate_limit
           rate_limit_json rate_limit_error eq_refl H).
Defined.


Lemma X14_witness :
  (Ai.nullish failed_at_once = false /\
   Ai.ToBoolean (Ai.get failed_at_once Ai.Kdone) = true /\
   Ai.ToString (Ai.Str "KEY") = Some "KEY"%string /\
   Ai.get (Ai.get (Ai.get (Ai.get (Ai.get failed_at_once Ai.Kresponse)
                             Ai.KgeneratedVideos) Ai.K0) Ai.Kvideo) Ai.Kuri
     = Ai.Undefined) /\
  Ai.generateMathVideo stringify_page Ai.Null (Ai.Str "KEY")
    (Ai.Answers failed_at_once) []
  = Ai.Resolved "undefined&key=KEY".
Proof.
  split; [repeat split |].
  exact (proj2 (X14_an_operation_done_at_once_is_not_checked stringify_page Ai.Null
                  (Ai.Str "KEY") failed_at_once [] "KEY"%string
                  eq_refl eq_refl eq_refl) eq_refl).
Defined.

Lemma X15_witness :
  Ai.generateMathVideo stringify_page Ai.Null (Ai.Str "KEY")
    (Ai.Answers in_progress) [Ai.Answers in_progress; Ai.Answers finished]
    <> Ai.Pending /\
  Ai.generateMathVideo stringify_page Ai.Null (Ai.Str "KEY")
    (Ai.Answers in_progress)
    ([Ai.Answers in_progress; Ai.Answers finished] ++ [Ai.Rejects Ai.Null])
  = Ai.generateMathVideo stringify_page Ai.Null (Ai.Str "KEY")
      (Ai.Answers in_progress) [Ai.Answers in_progress; Ai.Answers finished].
Proof.
  assert (H : Ai.generateMathVideo stringify_page Ai.Null (Ai.Str "KEY")
                (Ai.Answers in_progress) [Ai.Answers in_progress; Ai.Answers finished]
              <> Ai.Pending) by (vm_compute; discriminate).
  split; [exact H |].
  exact (proj1 (X15_the_first_answer_that_is_done_settles_the_video stringify_page
                  Ai.Null (Ai.Str "KEY"))
           (Ai.Answers in_progress) [Ai.Answers in_progress; Ai.Answers finished]
           [Ai.Rejects Ai.Null] H).
Defined.

Lemma X17_witness :
  (stringify_page rate_limit = Ai.Text rate_limit_json /\
   Ai.processError stringify_page rate_limit = Ai.Returns rate_limit_error) /\
  exists s',
    App.generateAiImage_settle "TypeError"
      (Ai.generateMathImage stringify_page Ai.Null (Ai.Rejects rate_limit)) loading
    = Some s' /\
    App.isImageLoading s' = false /\
    App.imageUrl s' = App.imageUrl loading.
Proof.
  assert (H : Ai.processError stringify_page rate_limit = Ai.Returns rate_limit_error)
    by (vm_compute; reflexivity).
  split; [split; [reflexivity | exact H] |].
  destruct (proj1 (X17_snapshot_fallback_is_for_quota_errors stringify_page Ai.Null
                     "TypeError"%string)
              rate_limit rate_limit_json rate_limit_error loading eq_refl H)
    as (s' & E & A & B & _).
  exists s'. repeat split; assumption.
Defined.

